(** * hyperHybrids: hyperedge synthesis and hypergraph construction

    A shallow embedding of the relational-view extraction of
    [hg-test2.py] (script 2), of the hypergraph construction and export of
    [03_build_hypergraph_structure.py] (script 3) and of the re-import and
    clustering driver of [04_perform_hypergraph_clustering.py] (script 4).

    Individuals are integer identifiers ([Z]); a hyperedge is a Python
    [frozenset] of identifiers, modelled as a [gset Z] (value equality is
    extensional equality of the member sets); distances are binary64
    floats, modelled by the kernel's primitive floats, of which only the
    comparison [<] is used. *)

From Stdlib Require Import ZArith List PrimFloat FloatOps FloatAxioms SpecFloat.
From stdpp Require Import gmap sets list sorting strings.

Set Warnings "-inexact-float".
Local Open Scope Z_scope.

(** ** Data model *)

Abbreviation Individual := Z (only parsing).
Abbreviation Hyperedge := (gset Z) (only parsing).

(** ** Script 2: the helper that removes duplicate hyperedges *)

Module Consolidator.

(** [unique_hyperedges] is [list(set(hyperedge_list))].  Python leaves the
    iteration order of a set unspecified; the model lists the members in the
    order of [elements].  Every property below is stated on the members
    (membership, [NoDup], permutation), never on that order, a list of at
    most one member excepted. *)
Definition unique_hyperedges (hyperedge_list : list Hyperedge) : list Hyperedge :=
  elements (list_to_set hyperedge_list : gset Hyperedge).

(** The tail of script 2: every view's list is appended to
    [all_hyperedges_from_loaded] ([list.extend]) and the whole is passed
    through [unique_hyperedges]. *)
Definition all_hyperedges_from_loaded (views : list (list Hyperedge)) : list Hyperedge :=
  mjoin views.

Definition final_hyperedge_list_loaded (views : list (list Hyperedge)) : list Hyperedge :=
  unique_hyperedges (all_hyperedges_from_loaded views).

Lemma elem_of_unique_hyperedges (l : list Hyperedge) (e : Hyperedge) :
  e ∈ unique_hyperedges l ↔ e ∈ l.
Proof.
  unfold unique_hyperedges. rewrite elem_of_elements, elem_of_list_to_set. done.
Qed.

Lemma NoDup_unique_hyperedges (l : list Hyperedge) : NoDup (unique_hyperedges l).
Proof. unfold unique_hyperedges. apply NoDup_elements. Qed.

Lemma unique_hyperedges_ext (l1 l2 : list Hyperedge) :
  (∀ e, e ∈ l1 ↔ e ∈ l2) → unique_hyperedges l1 ≡ₚ unique_hyperedges l2.
Proof.
  intros Hext. apply NoDup_Permutation; try apply NoDup_unique_hyperedges.
  intros e. rewrite !elem_of_unique_hyperedges. apply Hext.
Qed.

Lemma unique_hyperedges_singleton_set (l : list Hyperedge) (e : Hyperedge) :
  (∀ e', e' ∈ l ↔ e' = e) → unique_hyperedges l = [e].
Proof.
  intros Hl. unfold unique_hyperedges.
  assert (list_to_set l = ({[ e ]} : gset Hyperedge)) as ->.
  { apply set_eq. intros e'. rewrite elem_of_list_to_set, elem_of_singleton. apply Hl. }
  apply elements_singleton.
Qed.

Lemma elem_of_final (views : list (list Hyperedge)) (e : Hyperedge) :
  e ∈ final_hyperedge_list_loaded views ↔ ∃ v, v ∈ views ∧ e ∈ v.
Proof.
  unfold final_hyperedge_list_loaded, all_hyperedges_from_loaded.
  rewrite elem_of_unique_hyperedges. rewrite list_elem_of_join.
  split; intros (v & Hv1 & Hv2); exists v; done.
Qed.

(** C6.  Consolidation is idempotent and does not depend on the order of
    its input: consolidating the consolidated list again gives the same
    duplicate-free collection of hyperedges; permuting the views, or
    reordering the hyperedges inside each view, leaves the collection
    unchanged; and two hyperedges are the same hyperedge exactly when they
    have the same members. *)
Theorem consolidation_idempotent_order_independent (X Y : list (list Hyperedge)) :
  X ≡ₚ Y →
  final_hyperedge_list_loaded [final_hyperedge_list_loaded X]
    ≡ₚ final_hyperedge_list_loaded X
  ∧ unique_hyperedges (unique_hyperedges (all_hyperedges_from_loaded X))
    ≡ₚ unique_hyperedges (all_hyperedges_from_loaded X)
  ∧ NoDup (final_hyperedge_list_loaded X)
  ∧ final_hyperedge_list_loaded X ≡ₚ final_hyperedge_list_loaded Y
  ∧ (∀ X' : list (list Hyperedge),
       Forall2 (≡ₚ) X X' →
       final_hyperedge_list_loaded X ≡ₚ final_hyperedge_list_loaded X')
  ∧ (∀ e1 e2 : Hyperedge, e1 = e2 ↔ ∀ x : Z, x ∈ e1 ↔ x ∈ e2).
Proof.
  intros HXY. split; [|split; [|split; [|split; [|split]]]].
  - apply NoDup_Permutation; try apply NoDup_unique_hyperedges.
    intros e. rewrite !elem_of_final. split.
    + intros (v & Hv & He). apply list_elem_of_singleton in Hv as ->.
      by apply elem_of_final.
    + intros H. exists (final_hyperedge_list_loaded X). split.
      * by apply list_elem_of_singleton.
      * by apply elem_of_final.
  - apply unique_hyperedges_ext. intros e. apply elem_of_unique_hyperedges.
  - apply NoDup_unique_hyperedges.
  - apply unique_hyperedges_ext. intros e.
    unfold all_hyperedges_from_loaded. rewrite !list_elem_of_join.
    split; intros (v & He & Hv); exists v; (split; [done|]).
    + by rewrite <- HXY.
    + by rewrite HXY.
  - intros X' HX'. apply unique_hyperedges_ext. intros e.
    unfold all_hyperedges_from_loaded. rewrite !list_elem_of_join.
    split; intros (v & He & Hv).
    + destruct (list_elem_of_lookup_1 _ _ Hv) as [i Hi].
      destruct (Forall2_lookup_l _ _ _ _ _ HX' Hi) as (v' & Hv' & Hperm).
      exists v'. split; [by rewrite <- Hperm | by eapply list_elem_of_lookup_2].
    + destruct (list_elem_of_lookup_1 _ _ Hv) as [i Hi].
      destruct (Forall2_lookup_r _ _ _ _ _ HX' Hi) as (v' & Hv' & Hperm).
      exists v'. split; [by rewrite Hperm | by eapply list_elem_of_lookup_2].
  - intros e1 e2. split; [intros ->; done | intros H; by apply set_eq].
Qed.

Lemma consolidation_idempotent_order_independent_witness :
  let X : list (list Hyperedge) := [[ {[1; 2]}; {[3; 4]} ]; [ {[2; 1]} ]] in
  let Y : list (list Hyperedge) := [[ {[2; 1]} ]; [ {[1; 2]}; {[3; 4]} ]] in
  final_hyperedge_list_loaded [final_hyperedge_list_loaded X]
    ≡ₚ final_hyperedge_list_loaded X
  ∧ unique_hyperedges (unique_hyperedges (all_hyperedges_from_loaded X))
    ≡ₚ unique_hyperedges (all_hyperedges_from_loaded X)
  ∧ NoDup (final_hyperedge_list_loaded X)
  ∧ final_hyperedge_list_loaded X ≡ₚ final_hyperedge_list_loaded Y
  ∧ (∀ X' : list (list Hyperedge),
       Forall2 (≡ₚ) X X' →
       final_hyperedge_list_loaded X ≡ₚ final_hyperedge_list_loaded X')
  ∧ (∀ e1 e2 : Hyperedge, e1 = e2 ↔ ∀ x : Z, x ∈ e1 ↔ x ∈ e2).
Proof.
  apply (consolidation_idempotent_order_independent
           [[ {[1; 2]}; {[3; 4]} ]; [ {[2; 1]} ]]
           [[ {[2; 1]} ]; [ {[1; 2]}; {[3; 4]} ]]).
  apply perm_swap.
Defined.

End Consolidator.

(** ** Script 2: the genetic-distance threshold view *)

Module GeneticThreshold.
Import Consolidator.

(** The genetic-distance [DataFrame]: row labels ([index]), column labels
    ([columns], converted to integers after loading) and the matrix of
    floats, one list per row. *)
Record DistFrame := {
  index : list Z;
  columns : list Z;
  values : list (list float);
}.

(** [DataFrame.empty]: an axis of length zero. *)
Definition df_empty (df : DistFrame) : bool :=
  bool_decide (index df = []) || bool_decide (columns df = []).

(** [genetic_dist_df.iloc[i]]: the i-th row of values. *)
Definition iloc (df : DistFrame) (i : nat) : list float :=
  default [] (values df !! i).

(** [genetic_dist_df.columns[genetic_dist_df.iloc[i] < dist_threshold].tolist()]:
    the labels of the columns whose entry in the row is strictly below the
    threshold, in column order. *)
Fixpoint close_neighbor_ids (cols : list Z) (row : list float) (dist_threshold : float)
  : list Z :=
  match cols, row with
  | c :: cols', d :: row' =>
      if PrimFloat.ltb d dist_threshold
      then c :: close_neighbor_ids cols' row' dist_threshold
      else close_neighbor_ids cols' row' dist_threshold
  | _, _ => []
  end.

(** The body of the loop for row [i]: [Some] of the appended frozenset, or
    [None] when nothing is appended. *)
Definition row_hyperedge (df : DistFrame) (dist_threshold : float) (min_size : Z) (i : nat)
  : option Hyperedge :=
  let ids := close_neighbor_ids (columns df) (iloc df i) dist_threshold in
  if decide (min_size ≤ Z.of_nat (length ids)) then Some (list_to_set ids) else None.

Definition get_genetic_distance_threshold_hyperedges
    (genetic_dist_df : DistFrame) (dist_threshold : float) (min_size : Z) : list Hyperedge :=
  if df_empty genetic_dist_df then []
  else unique_hyperedges
         (omap (row_hyperedge genetic_dist_df dist_threshold min_size)
               (seq 0 (length (index genetic_dist_df)))).

(** The policy as the specification words it: for the individual of row
    [i], only the _other_ individuals below the threshold are collected. *)
Definition spec_others_below (df : DistFrame) (dist_threshold : float) (i : nat) : list Z :=
  filter (λ j, Some j ≠ index df !! i)
         (close_neighbor_ids (columns df) (iloc df i) dist_threshold).

Definition spec_row_hyperedge (df : DistFrame) (dist_threshold : float) (min_size : Z) (i : nat)
  : option Hyperedge :=
  let others := spec_others_below df dist_threshold i in
  if decide (min_size ≤ Z.of_nat (size (list_to_set others : gset Z)))
  then Some (list_to_set others) else None.

Definition spec_genetic_distance_threshold_hyperedges
    (df : DistFrame) (dist_threshold : float) (min_size : Z) : list Hyperedge :=
  unique_hyperedges (omap (spec_row_hyperedge df dist_threshold min_size)
                          (seq 0 (length (index df)))).

(** A frame whose diagonal is zero: the columns carry the row labels and
    the entry of row [i] in column [i] is [0.0]. *)
Definition zero_diagonal (df : DistFrame) : Prop :=
  columns df = index df ∧
  ∀ i, (i < length (index df))%nat →
       ∃ row, values df !! i = Some row ∧ row !! i = Some 0%float.

(** The matrix of scenario C over the individuals [ids]: zero on the
    diagonal, 0.05 between [a] and [b], 0.5 elsewhere. *)
Definition scenarioC_entry (a b i j : Z) : float :=
  if decide (i = j) then 0%float
  else if decide ((i = a ∧ j = b) ∨ (i = b ∧ j = a)) then 0.05%float
  else 0.5%float.

Definition scenarioC_frame (ids : list Z) (a b : Z) : DistFrame :=
  {| index := ids; columns := ids;
     values := (λ i, scenarioC_entry a b i <$> ids) <$> ids |}.

(** *** Membership in the collected labels *)

Lemma elem_of_close_neighbor_ids (cols : list Z) (row : list float) (thr : float) (j : Z) :
  j ∈ close_neighbor_ids cols row thr ↔
  ∃ k d, cols !! k = Some j ∧ row !! k = Some d ∧ PrimFloat.ltb d thr = true.
Proof.
  revert row. induction cols as [|c cols IH]; intros [|d row]; simpl.
  - split; [intros H; inversion H | intros (k & d & H & _); destruct k; discriminate].
  - split; [intros H; inversion H | intros (k & d' & H & _); destruct k; discriminate].
  - split; [intros H; inversion H | intros (k & d' & _ & H & _); destruct k; discriminate].
  - destruct (PrimFloat.ltb d thr) eqn:Hd.
    + rewrite elem_of_cons, IH. split.
      * intros [-> | (k & d' & H1 & H2 & H3)].
        -- exists 0%nat, d. done.
        -- exists (S k), d'. done.
      * intros ([|k] & d' & H1 & H2 & H3); simpl in *.
        -- left. congruence.
        -- right. exists k, d'. done.
    + rewrite IH. split.
      * intros (k & d' & H1 & H2 & H3). exists (S k), d'. done.
      * intros ([|k] & d' & H1 & H2 & H3); simpl in *.
        -- congruence.
        -- exists k, d'. done.
Qed.

Lemma close_neighbor_ids_sublist (cols : list Z) (row : list float) (thr : float) :
  sublist (close_neighbor_ids cols row thr) cols.
Proof.
  revert row. induction cols as [|c cols IH]; intros [|d row]; simpl;
    try apply sublist_nil_l.
  destruct (PrimFloat.ltb d thr); [apply sublist_skip | apply sublist_cons]; apply IH.
Qed.

Lemma NoDup_close_neighbor_ids (cols : list Z) (row : list float) (thr : float) :
  NoDup cols → NoDup (close_neighbor_ids cols row thr).
Proof. intros H. eapply sublist_NoDup; [done | apply close_neighbor_ids_sublist]. Qed.

Lemma close_neighbor_ids_fmap (f : Z → float) (cols : list Z) (thr : float) :
  close_neighbor_ids cols (f <$> cols) thr = filter (λ j, PrimFloat.ltb (f j) thr = true) cols.
Proof.
  induction cols as [|c cols IH]; [done|]. csimpl.
  rewrite filter_cons. destruct (PrimFloat.ltb (f c) thr) eqn:Hc.
  - rewrite decide_True by done. by rewrite IH.
  - rewrite decide_False by done. done.
Qed.

(** *** The rows of the scenario-C matrix *)

Lemma scenarioC_entry_below (a b i j : Z) :
  PrimFloat.ltb (scenarioC_entry a b i j) 0.1 = true ↔
  j = i ∨ (i = a ∧ j = b) ∨ (i = b ∧ j = a).
Proof.
  unfold scenarioC_entry. repeat case_decide.
  - split; [intros _; left; congruence | intros _; reflexivity].
  - split; [intros _; right; tauto | intros _; reflexivity].
  - split; [intros H'; vm_compute in H'; discriminate | intros [->|H']; tauto].
Qed.

Lemma iloc_scenarioC (ids : list Z) (a b : Z) (i : nat) (id : Z) :
  ids !! i = Some id →
  iloc (scenarioC_frame ids a b) i = scenarioC_entry a b id <$> ids.
Proof.
  intros Hi. unfold iloc, scenarioC_frame. simpl.
  rewrite list_lookup_fmap, Hi. done.
Qed.

Lemma scenarioC_collected (ids : list Z) (a b : Z) (i : nat) (id : Z) :
  NoDup ids → a ∈ ids → b ∈ ids → ids !! i = Some id →
  let collected := close_neighbor_ids ids (iloc (scenarioC_frame ids a b) i) 0.1 in
  length collected = size (list_to_set collected : gset Z) ∧
  (list_to_set collected : gset Z) =
    if decide (id = a ∨ id = b) then {[a; b]} else {[id]}.
Proof.
  intros Hnd Ha Hb Hi collected. split.
  - symmetry. apply size_list_to_set. by apply NoDup_close_neighbor_ids.
  - subst collected. rewrite (iloc_scenarioC _ _ _ _ _ Hi), close_neighbor_ids_fmap.
    assert (id ∈ ids) as Hid by (eapply list_elem_of_lookup_2; done).
    apply set_eq. intros j.
    rewrite elem_of_list_to_set, list_elem_of_filter, scenarioC_entry_below.
    case_decide as Hab.
    + rewrite elem_of_union, !elem_of_singleton.
      split; [intros [[->|[[-> ->]|[-> ->]]] _]; tauto|].
      intros [->| ->]; (split; [|done]); destruct Hab as [->| ->]; tauto.
    + rewrite elem_of_singleton. split; [intros [[->|[[-> ->]|[-> ->]]] _]; tauto|].
      intros ->. tauto.
Qed.

Lemma scenarioC_row_hyperedge (ids : list Z) (a b : Z) (i : nat) (id : Z) :
  NoDup ids → a ∈ ids → b ∈ ids → a ≠ b → ids !! i = Some id →
  row_hyperedge (scenarioC_frame ids a b) 0.1 2 i =
    if decide (id = a ∨ id = b) then Some {[a; b]} else None.
Proof.
  intros Hnd Ha Hb Hab Hi.
  destruct (scenarioC_collected ids a b i id Hnd Ha Hb Hi) as [Hlen Hset].
  unfold row_hyperedge. cbn [columns scenarioC_frame].
  rewrite Hlen, Hset. case_decide.
  - rewrite size_union, !size_singleton by set_solver.
    rewrite decide_True by lia. done.
  - rewrite size_singleton. rewrite decide_False by lia. done.
Qed.

(** *** Claims on the genetic-distance threshold view *)

(** C4 (scenario C).  On the symmetric zero-diagonal matrix over any
    duplicate-free list of individuals whose only off-diagonal entry below
    0.5 is the 0.05 between [a] and [b], the view with threshold 0.1 and
    minimum size 2 returns, after deduplication, exactly one hyperedge: the
    pair [{a, b}], of size 2. *)
Theorem scenario_C_single_pair (ids : list Z) (a b : Z) :
  NoDup ids → a ∈ ids → b ∈ ids → a ≠ b →
  get_genetic_distance_threshold_hyperedges (scenarioC_frame ids a b) 0.1 2
    = [ {[a; b]} ]
  ∧ size ({[a; b]} : gset Z) = 2%nat.
Proof.
  intros Hnd Ha Hb Hab. split.
  - unfold get_genetic_distance_threshold_hyperedges.
    assert (df_empty (scenarioC_frame ids a b) = false) as ->.
    { unfold df_empty. simpl.
      rewrite !bool_decide_eq_false_2 by (intros ->; inversion Ha). done. }
    apply unique_hyperedges_singleton_set. intros e.
    rewrite list_elem_of_omap. cbn [index scenarioC_frame]. split.
    + intros (i & Hi & He). apply elem_of_seq in Hi as [_ Hi]. simpl in Hi.
      destruct (lookup_lt_is_Some_2 ids i Hi) as [id Hid].
      rewrite (scenarioC_row_hyperedge ids a b i id) in He by done.
      case_decide; congruence.
    + intros ->. destruct (list_elem_of_lookup_1 _ _ Ha) as [i Hi].
      exists i. split.
      * apply elem_of_seq. apply lookup_lt_Some in Hi. lia.
      * rewrite (scenarioC_row_hyperedge ids a b i a) by done.
        rewrite decide_True by tauto. done.
  - rewrite size_union, !size_singleton by set_solver. done.
Qed.

Lemma scenario_C_single_pair_witness :
  get_genetic_distance_threshold_hyperedges (scenarioC_frame [10; 11; 12; 13] 11 13) 0.1 2
    = [ {[11; 13]} ]
  ∧ size ({[11; 13]} : gset Z) = 2%nat.
Proof.
  apply (scenario_C_single_pair [10; 11; 12; 13] 11 13).
  - repeat constructor; rewrite ?elem_of_cons, ?elem_of_nil; lia.
  - rewrite !elem_of_cons; tauto.
  - rewrite !elem_of_cons; tauto.
  - lia.
Defined.

(** Two individuals at distance 0.05 of each other. *)
Definition pair_frame : DistFrame :=
  {| index := [0; 1]; columns := [0; 1];
     values := [[0%float; 0.05%float]; [0.05%float; 0%float]] |}.

(** C5, as the specification words it, fails on the code: on [pair_frame]
    with threshold 0.1 and minimum size 2 each row collects both
    individuals (its own zero diagonal entry is below the threshold) and the
    view emits [{0, 1}], whereas collecting only the _other_ individuals
    gives sets of size 1 and no hyperedge. *)
Lemma threshold_others_only_counterexample :
  get_genetic_distance_threshold_hyperedges pair_frame 0.1 2 = [ {[0; 1]} ]
  ∧ spec_genetic_distance_threshold_hyperedges pair_frame 0.1 2 = []
  ∧ close_neighbor_ids (columns pair_frame) (iloc pair_frame 0) 0.1 = [0; 1]
  ∧ spec_others_below pair_frame 0.1 0 = [1].
Proof. repeat split; vm_compute; reflexivity. Qed.

(** C5 (amended).  For every row [i] the view collects the labels of _all_
    columns whose entry in that row is strictly below the threshold (the
    focal individual's own column included whenever its diagonal entry is
    below the threshold), and the returned list holds a hyperedge [e]
    exactly when the frame is not empty and some row's collected labels are
    at least [min_size] in number and form the set [e]; with duplicate-free
    column labels that number is the size of the set. *)
Theorem genetic_threshold_policy (df : DistFrame) (thr : float) (min_size : Z) :
  (∀ e : gset Z,
     e ∈ get_genetic_distance_threshold_hyperedges df thr min_size ↔
     df_empty df = false ∧
     ∃ i, (i < length (index df))%nat ∧
          min_size ≤ Z.of_nat (length (close_neighbor_ids (columns df) (iloc df i) thr)) ∧
          e = list_to_set (close_neighbor_ids (columns df) (iloc df i) thr))
  ∧ (∀ (i : nat) (j : Z),
       j ∈ close_neighbor_ids (columns df) (iloc df i) thr ↔
       ∃ k d, columns df !! k = Some j ∧ iloc df i !! k = Some d
              ∧ PrimFloat.ltb d thr = true)
  ∧ (NoDup (columns df) → ∀ i : nat,
       size (list_to_set (close_neighbor_ids (columns df) (iloc df i) thr) : gset Z)
       = length (close_neighbor_ids (columns df) (iloc df i) thr)).
Proof.
  split; [|split].
  - intros e. unfold get_genetic_distance_threshold_hyperedges.
    destruct (df_empty df) eqn:Hempty.
    + split; [intros H; inversion H | intros [? _]; discriminate].
    + rewrite elem_of_unique_hyperedges, list_elem_of_omap. split.
      * intros (i & Hi & He). split; [done|]. exists i.
        apply elem_of_seq in Hi as [_ Hi]. unfold row_hyperedge in He.
        case_decide; [|discriminate]. injection He as <-. split; [lia | done].
      * intros (_ & i & Hi & Hmin & ->). exists i. split.
        -- apply elem_of_seq. lia.
        -- unfold row_hyperedge. rewrite decide_True by done. done.
  - intros i j. apply elem_of_close_neighbor_ids.
  - intros Hnd i. apply size_list_to_set. by apply NoDup_close_neighbor_ids.
Qed.

Lemma genetic_threshold_policy_witness :
  size (list_to_set (close_neighbor_ids (columns pair_frame) (iloc pair_frame 1) 0.1) : gset Z)
  = length (close_neighbor_ids (columns pair_frame) (iloc pair_frame 1) 0.1).
Proof.
  apply (proj2 (proj2 (genetic_threshold_policy pair_frame 0.1 2))).
  simpl. repeat constructor; rewrite ?elem_of_cons, ?elem_of_nil; lia.
Defined.

(** C10.  In a frame with zero diagonal and for a strictly positive
    threshold, the individual of row [i] is among the labels collected for
    row [i] (so it counts in the minimum-size test), and every hyperedge
    emitted for row [i] contains it. *)
Theorem focal_individual_in_own_hyperedge
    (df : DistFrame) (thr : float) (min_size : Z) (i : nat) (id : Z) :
  zero_diagonal df → PrimFloat.ltb 0 thr = true → index df !! i = Some id →
  id ∈ close_neighbor_ids (columns df) (iloc df i) thr
  ∧ (1 ≤ length (close_neighbor_ids (columns df) (iloc df i) thr))%nat
  ∧ ∀ e : gset Z, row_hyperedge df thr min_size i = Some e → id ∈ e.
Proof.
  intros [Hcols Hdiag] Hthr Hid.
  assert (id ∈ close_neighbor_ids (columns df) (iloc df i) thr) as Hin.
  { apply elem_of_close_neighbor_ids.
    destruct (Hdiag i) as (row & Hrow & Hentry).
    { eapply lookup_lt_Some; done. }
    exists i, 0%float. rewrite Hcols. unfold iloc. rewrite Hrow. done. }
  split; [done|]. split.
  - destruct (close_neighbor_ids (columns df) (iloc df i) thr);
      [inversion Hin | simpl; lia].
  - intros e He. unfold row_hyperedge in He.
    case_decide; [|discriminate]. injection He as <-.
    by apply elem_of_list_to_set.
Qed.

Lemma focal_individual_in_own_hyperedge_witness :
  1 ∈ close_neighbor_ids (columns pair_frame) (iloc pair_frame 1) 0.1
  ∧ (1 ≤ length (close_neighbor_ids (columns pair_frame) (iloc pair_frame 1) 0.1))%nat
  ∧ ∀ e : gset Z, row_hyperedge pair_frame 0.1 2 1%nat = Some e → 1 ∈ e.
Proof.
  apply (focal_individual_in_own_hyperedge pair_frame 0.1 2 1%nat 1).
  - split; [reflexivity|]. intros [|[|i]] Hi; simpl in Hi.
    + exists [0%float; 0.05%float]. split; reflexivity.
    + exists [0.05%float; 0%float]. split; reflexivity.
    + lia.
  - reflexivity.
  - reflexivity.
Defined.

End GeneticThreshold.

(** ** Script 2: the family grouping view *)

Module FamilyView.
Import Consolidator.

(** One row of the individuals table ([simulated_individuals.csv]). *)
Record IndividualRow := {
  individual_id : Z;
  true_group : string;
  family_id : Z;
  environment : string;
}.

#[global] Instance IndividualRow_eq_dec : EqDecision IndividualRow.
Proof. solve_decision. Defined.

(** [valid_families.groupby(family_id_col)]: one group per distinct key,
    keys in ascending order, the rows of a group in table order. *)
Definition groupby_family (rows : list IndividualRow) : list (Z * list IndividualRow) :=
  (λ k, (k, filter (λ r, family_id r = k) rows))
    <$> merge_sort Z.le (remove_dups (family_id <$> rows)).

(** The body of the loop over the groups. *)
Definition family_group_hyperedge (min_family_size : Z) (g : Z * list IndividualRow)
  : option Hyperedge :=
  if decide (min_family_size ≤ Z.of_nat (length g.2))
  then Some (list_to_set (individual_id <$> g.2)) else None.

Definition get_family_hyperedges (individuals_df : list IndividualRow) (min_family_size : Z)
  : list Hyperedge :=
  if bool_decide (individuals_df = []) then []
  else
    let valid_families := filter (λ r, family_id r ≠ -1) individuals_df in
    let grouped_by_family := groupby_family valid_families in
    unique_hyperedges (omap (family_group_hyperedge min_family_size) grouped_by_family).

Definition mk_row (id fam : Z) : IndividualRow :=
  {| individual_id := id; true_group := "Group_0"; family_id := fam; environment := "Env_A" |}.

(** The family table of scenario B, and the same table with three more
    individuals that have no family. *)
Definition scenarioB_table : list IndividualRow :=
  [mk_row 1 0; mk_row 2 0; mk_row 3 0; mk_row 4 1; mk_row 5 1].

Definition scenarioB_with_unassigned : list IndividualRow :=
  [mk_row 6 (-1); mk_row 1 0; mk_row 2 0; mk_row 7 (-1); mk_row 3 0;
   mk_row 4 1; mk_row 5 1; mk_row 8 (-1)].

Lemma filter_valid_idemp (rows : list IndividualRow) :
  filter (λ r, family_id r ≠ -1) (filter (λ r, family_id r ≠ -1) rows)
  = filter (λ r, family_id r ≠ -1) rows.
Proof.
  induction rows as [|r rows IH]; [done|].
  rewrite filter_cons. case_decide as Hr; [|done].
  rewrite filter_cons, decide_True by done. by rewrite IH.
Qed.

Lemma elem_of_groupby_family (rows : list IndividualRow) (g : Z * list IndividualRow) :
  g ∈ groupby_family rows →
  ∀ r, r ∈ g.2 → r ∈ rows ∧ family_id r = g.1.
Proof.
  unfold groupby_family. rewrite list_elem_of_fmap.
  intros (k & -> & _) r. simpl. rewrite list_elem_of_filter. tauto.
Qed.

(** Every member of an emitted family hyperedge is an individual of the
    table whose family id is not the sentinel. *)
Lemma family_hyperedge_members
    (df : list IndividualRow) (min_family_size : Z) (e : gset Z) (x : Z) :
  e ∈ get_family_hyperedges df min_family_size → x ∈ e →
  ∃ r, r ∈ df ∧ individual_id r = x ∧ family_id r ≠ -1.
Proof.
  unfold get_family_hyperedges. case_bool_decide; [intros H'; inversion H'|].
  rewrite elem_of_unique_hyperedges, list_elem_of_omap.
  intros (g & Hg & He) Hx. unfold family_group_hyperedge in He.
  case_decide; [|discriminate]. injection He as <-.
  apply elem_of_list_to_set, list_elem_of_fmap in Hx as (r & -> & Hr).
  destruct (elem_of_groupby_family _ _ Hg r Hr) as [Hvalid _].
  apply list_elem_of_filter in Hvalid as [Hfam Hdf]. by exists r.
Qed.

(** The rows whose family id is the sentinel have no influence on the
    result. *)
Lemma family_hyperedges_ignore_sentinel (df : list IndividualRow) (min_family_size : Z) :
  get_family_hyperedges df min_family_size
  = get_family_hyperedges (filter (λ r, family_id r ≠ -1) df) min_family_size.
Proof.
  unfold get_family_hyperedges. rewrite filter_valid_idemp.
  destruct (filter (λ r, family_id r ≠ -1) df) as [|r valid] eqn:Hvalid.
  - rewrite (bool_decide_eq_true_2 ([] = [])) by done.
    case_bool_decide; [done|]. unfold groupby_family, unique_hyperedges. simpl.
    apply elements_empty.
  - rewrite (bool_decide_eq_false_2 (r :: valid = [])) by done.
    rewrite bool_decide_eq_false_2; [done|].
    intros ->. discriminate.
Qed.

(** C8 (scenario B).  With minimum size 2 the family view emits exactly
    [{1,2,3}] and [{4,5}] on the table 1,2,3 in family 0 and 4,5 in family 1,
    also when individuals without a family (several sharing the sentinel -1)
    are added to it; in general every member of an emitted hyperedge is an
    individual whose family id is not -1, and dropping the sentinel rows from
    any table leaves the result unchanged. *)
Theorem family_view_scenario_B :
  get_family_hyperedges scenarioB_table 2 ≡ₚ [ {[1; 2; 3]}; {[4; 5]} ]
  ∧ get_family_hyperedges scenarioB_with_unassigned 2 ≡ₚ [ {[1; 2; 3]}; {[4; 5]} ]
  ∧ (∀ (df : list IndividualRow) (min_family_size : Z) (e : gset Z) (x : Z),
       e ∈ get_family_hyperedges df min_family_size → x ∈ e →
       ∃ r, r ∈ df ∧ individual_id r = x ∧ family_id r ≠ -1)
  ∧ (∀ (df : list IndividualRow) (min_family_size : Z),
       get_family_hyperedges df min_family_size
       = get_family_hyperedges (filter (λ r, family_id r ≠ -1) df) min_family_size).
Proof.
  split; [|split; [|split]].
  - assert (get_family_hyperedges scenarioB_table 2 = [ {[1; 2; 3]}; {[4; 5]} ]) as ->
      by (vm_compute; reflexivity).
    done.
  - rewrite family_hyperedges_ignore_sentinel.
    assert (filter (λ r, family_id r ≠ -1) scenarioB_with_unassigned = scenarioB_table)
      as -> by (vm_compute; reflexivity).
    assert (get_family_hyperedges scenarioB_table 2 = [ {[1; 2; 3]}; {[4; 5]} ]) as ->
      by (vm_compute; reflexivity).
    done.
  - apply family_hyperedge_members.
  - apply family_hyperedges_ignore_sentinel.
Qed.

Lemma family_view_scenario_B_witness :
  ∃ r, r ∈ scenarioB_with_unassigned ∧ individual_id r = 4 ∧ family_id r ≠ -1.
Proof.
  apply (proj1 (proj2 (proj2 family_view_scenario_B))
           scenarioB_with_unassigned 2 {[4; 5]} 4).
  - assert (get_family_hyperedges scenarioB_with_unassigned 2 = [ {[1; 2; 3]}; {[4; 5]} ])
      as -> by (vm_compute; reflexivity).
    rewrite !elem_of_cons. tauto.
  - rewrite elem_of_union, !elem_of_singleton. lia.
Defined.

End FamilyView.

(** ** Scripts 3 and 4: loading hyperedges, building and exporting the
       hypergraph, re-importing it and clustering *)

Module HypergraphModel.

(** A member of a hyperedge list read from JSON, by what Python's [int]
    makes of it: [JInt z] converts to [z]; [JNonInt s] (a non-numeric
    string, say) makes [int] raise [ValueError], which the loop catches.  A
    member on which [int] raises anything else is a [json_value] of its own,
    see [load_entries] below. *)
Inductive json_member :=
  | JInt (z : Z)
  | JNonInt (s : string).

Definition py_int (m : json_member) : option Z :=
  match m with
  | JInt z => Some z
  | JNonInt _ => None
  end.

(** The loading loop shared by scripts 3 and 4, on a file all of whose
    members convert or raise [ValueError] (the loop then always runs to its
    end): each list is turned into [set(map(int, he_list))]; a list on which
    [int] raises [ValueError] is skipped with a warning, an empty set is
    skipped silently, every other set is appended.  [load_entries] below is
    the loop on any file, with the exit through the outer handler. *)
Fixpoint hyperedges_for_hnx_constructor (loaded : list (list json_member))
  : list Hyperedge :=
  match loaded with
  | [] => []
  | he_list :: rest =>
      match mapM py_int he_list with
      | None => hyperedges_for_hnx_constructor rest
      | Some members =>
          let current_edge : gset Z := list_to_set members in
          if decide (current_edge = ∅) then hyperedges_for_hnx_constructor rest
          else current_edge :: hyperedges_for_hnx_constructor rest
      end
  end.

(** The HyperNetX hypergraph built from a list of sets: the edge with
    identifier [i] has the [i]-th set as members ([H.incidence_dict]) and
    the nodes are the members of the edges ([H.nodes]). *)
Record Hypergraph := { incidence_dict : list Hyperedge }.

Definition hnx_Hypergraph (setsystem : list Hyperedge) : Hypergraph :=
  {| incidence_dict := setsystem |}.

Definition H_nodes (H : Hypergraph) : gset Z := ⋃ incidence_dict H.

(** The content of [hypergraph_structure.json]. *)
Record structure_data := {
  nodes : list Z;
  hyperedges : list (list json_member);
}.

(** Script 3, export: the sorted node list and, per edge, the sorted list
    of its members. *)
Definition hypergraph_structure_data (H : Hypergraph) : structure_data :=
  {| nodes := merge_sort Z.le (elements (H_nodes H));
     hyperedges := (λ edge_members : gset Z,
                      JInt <$> merge_sort Z.le (elements edge_members))
                   <$> incidence_dict H |}.

(** Script 3 as a whole: [None] when no valid hyperedge was loaded (the
    construction and the export are skipped), otherwise the hypergraph and
    the structure written to the file. *)
Definition script3 (loaded_hyperedges_as_lists : list (list json_member))
  : option (Hypergraph * structure_data) :=
  match hyperedges_for_hnx_constructor loaded_hyperedges_as_lists with
  | [] => None
  | edges =>
      let H := hnx_Hypergraph edges in
      Some (H, hypergraph_structure_data H)
  end.

(** Script 4, import: [None] stands for the error message followed by
    [exit()].  The [nodes] list of the file is read but not used. *)
Definition reconstruct_H (data : structure_data) : option Hypergraph :=
  match hyperedges_for_hnx_constructor (hyperedges data) with
  | [] => None
  | edges => Some (hnx_Hypergraph edges)
  end.

(** What a run of script 4 leaves behind. *)
Inductive script4_outcome :=
  | ExitNoValidHyperedges
  | NoAssignments
  | SavedAssignments (rows : list (Z * nat)).

(** [node_to_cluster]: the clusters are visited in order, a later cluster
    overwrites the label of a node seen before. *)
Definition node_to_cluster (partition : list (gset Z)) : gmap Z nat :=
  foldl (λ (m : gmap Z nat) (p : nat * gset Z), gset_to_gmap p.1 p.2 ∪ m)
        ∅ (zip (seq 0 (length partition)) partition).

(** The rows of the assignments table, sorted by [individual_id]. *)
Definition cluster_assignments (m : gmap Z nat) : list (Z * nat) :=
  omap (λ k, (k,.) <$> m !! k) (merge_sort Z.le (elements (dom m))).

Section Clustering.

(** The external detector [hmod.kumar] ([None]: it raised) and whether its
    module could be imported. *)
Variable kumar : Hypergraph → option (list (gset Z)).
Variable HMOD_AVAILABLE : bool.

(** [if H and HMOD_AVAILABLE]: the truth value of an HNX hypergraph is that
    of its length, the number of its nodes. *)
Definition script4 (data : structure_data) : script4_outcome :=
  match reconstruct_H data with
  | None => ExitNoValidHyperedges
  | Some H =>
      if bool_decide (H_nodes H ≠ ∅) && HMOD_AVAILABLE then
        match kumar H with
        | None => NoAssignments
        | Some [] => NoAssignments
        | Some partition =>
            let m := node_to_cluster partition in
            if decide (m = ∅) then NoAssignments
            else SavedAssignments (cluster_assignments m)
        end
      else NoAssignments
  end.

End Clustering.

(** The degenerate detector of the specification: every node in its own
    community, in ascending order of identifier. *)
Definition singleton_detector (H : Hypergraph) : option (list (gset Z)) :=
  Some ((λ n : Z, ({[ n ]} : gset Z)) <$> merge_sort Z.le (elements (H_nodes H))).

(** *** The loading loop on any file *)

(** A JSON value standing as a member: one on which [int] converts or
    raises [ValueError], or one on which it raises another exception
    ([TypeError] on [null], a nested list or an object, [OverflowError] on an
    infinite float), which the loop does not catch. *)
Inductive json_value :=
  | JMember (m : json_member)
  | JUnconvertible.

(** An entry of the loaded document: something [map(int, .)] can iterate
    (a list, or a string or object, taken by its items), or not (a number,
    [true], [null]: [TypeError]). *)
Inductive json_entry :=
  | EIterable (members : list json_value)
  | ENotIterable.

(** The loaded document itself, which [enumerate] iterates (or cannot). *)
Inductive json_document :=
  | DocIterable (entries : list json_entry)
  | DocNotIterable.

(** How [set(map(int, he_list))] ends: with the converted members, or with
    the exception of the first member that raises (the members are converted
    from left to right, and nothing after that member is looked at). *)
Inductive conversion :=
  | Members (members : list Z)
  | RaisedValueError
  | RaisedOther.

Fixpoint convert_members (he_list : list json_value) : conversion :=
  match he_list with
  | [] => Members []
  | JUnconvertible :: _ => RaisedOther
  | JMember m :: rest =>
      match py_int m with
      | None => RaisedValueError
      | Some z =>
          match convert_members rest with
          | Members zs => Members (z :: zs)
          | RaisedValueError => RaisedValueError
          | RaisedOther => RaisedOther
          end
      end
  end.

Definition convert_entry (entry : json_entry) : conversion :=
  match entry with
  | EIterable members => convert_members members
  | ENotIterable => RaisedOther
  end.

(** The loop with both handlers: [ValueError] is caught inside the loop
    (warning, next list); any other exception leaves the loop for the outer
    [except Exception], which prints an error and calls [exit()]: [None], and
    the edges collected so far go nowhere. *)
Fixpoint load_entries (entries : list json_entry) : option (list Hyperedge) :=
  match entries with
  | [] => Some []
  | entry :: rest =>
      match convert_entry entry with
      | RaisedOther => None
      | RaisedValueError => load_entries rest
      | Members members =>
          let current_edge : gset Z := list_to_set members in
          if decide (current_edge = ∅) then load_entries rest
          else (current_edge ::.) <$> load_entries rest
      end
  end.

Definition load_document (doc : json_document) : option (list Hyperedge) :=
  match doc with
  | DocIterable entries => load_entries entries
  | DocNotIterable => None
  end.

(** Script 3 on any document: the exit through the outer handler, the
    skipped construction when no valid hyperedge was loaded, or the
    hypergraph handed to HyperNetX and the structure exported. *)
Inductive script3_outcome :=
  | Script3Exit
  | Script3Skipped
  | Script3Built (H : Hypergraph) (data : structure_data).

Definition script3_run (doc : json_document) : script3_outcome :=
  match load_document doc with
  | None => Script3Exit
  | Some [] => Script3Skipped
  | Some edges =>
      let H := hnx_Hypergraph edges in
      Script3Built H (hypergraph_structure_data H)
  end.

(** A file all of whose members convert or raise [ValueError], as a
    document. *)
Definition plain_entries (loaded : list (list json_member)) : list json_entry :=
  (λ he_list, EIterable (JMember <$> he_list)) <$> loaded.

(** Script 4 on any value under the key ["hyperedges"]: [None] stands for
    [exit()], reached through the outer handler or through the test
    [if not hyperedges_for_hnx_constructor]. *)
Definition script4_reconstruct (raw_hyperedges : json_document) : option Hypergraph :=
  match load_document raw_hyperedges with
  | None => None
  | Some [] => None
  | Some edges => Some (hnx_Hypergraph edges)
  end.

(** *** The loading loop *)

Lemma elem_of_hyperedges_for_hnx_constructor
    (loaded : list (list json_member)) (e : gset Z) :
  e ∈ hyperedges_for_hnx_constructor loaded ↔
  ∃ he_list members,
    he_list ∈ loaded ∧ mapM py_int he_list = Some members
    ∧ e = list_to_set members ∧ e ≠ ∅.
Proof.
  induction loaded as [|he_list rest IH]; simpl.
  - split; [intros H; inversion H | intros (? & ? & H & _); inversion H].
  - destruct (mapM py_int he_list) as [members|] eqn:Hconv.
    + case_decide as Hempty.
      * rewrite IH. split.
        -- intros (l & ms & Hl & Hms & -> & Hne). exists l, ms.
           rewrite elem_of_cons. tauto.
        -- intros (l & ms & Hl & Hms & -> & Hne).
           apply elem_of_cons in Hl as [-> | Hl].
           ++ congruence.
           ++ by exists l, ms.
      * rewrite elem_of_cons, IH. split.
        -- intros [-> | (l & ms & Hl & Hms & -> & Hne)].
           ++ exists he_list, members. rewrite elem_of_cons. tauto.
           ++ exists l, ms. rewrite elem_of_cons. tauto.
        -- intros (l & ms & Hl & Hms & -> & Hne).
           apply elem_of_cons in Hl as [-> | Hl].
           ++ left. congruence.
           ++ right. by exists l, ms.
    + rewrite IH. split.
      * intros (l & ms & Hl & Hms & -> & Hne). exists l, ms.
        rewrite elem_of_cons. tauto.
      * intros (l & ms & Hl & Hms & -> & Hne).
        apply elem_of_cons in Hl as [-> | Hl].
        -- congruence.
        -- by exists l, ms.
Qed.

Lemma hyperedges_for_hnx_constructor_nonempty (loaded : list (list json_member)) :
  Forall (λ e : gset Z, e ≠ ∅) (hyperedges_for_hnx_constructor loaded).
Proof.
  apply Forall_forall. intros e He.
  apply elem_of_hyperedges_for_hnx_constructor in He as (? & ? & _ & _ & _ & Hne).
  done.
Qed.

Lemma list_to_set_sorted_elements (e : gset Z) :
  list_to_set (merge_sort Z.le (elements e)) = e.
Proof.
  apply set_eq. intros x.
  rewrite elem_of_list_to_set, merge_sort_Permutation, elem_of_elements. done.
Qed.

(** Loading what the export wrote gives back the exported edges, provided
    none of them is empty. *)
Lemma load_exported_edges (edges : list (gset Z)) :
  Forall (λ e : gset Z, e ≠ ∅) edges →
  hyperedges_for_hnx_constructor
    ((λ edge_members : gset Z, JInt <$> merge_sort Z.le (elements edge_members)) <$> edges)
  = edges.
Proof.
  induction 1 as [|e edges Hne _ IH]; [done|]. csimpl.
  rewrite mapM_fmap_Some by done.
  rewrite list_to_set_sorted_elements, decide_False by done.
  by rewrite IH.
Qed.

(** *** The loading loop on any file: what it passes on, and when it exits *)

Lemma raised_other_cons (entry : json_entry) (rest : list json_entry) :
  convert_entry entry ≠ RaisedOther →
  (∃ x, x ∈ entry :: rest ∧ convert_entry x = RaisedOther)
  ↔ (∃ x, x ∈ rest ∧ convert_entry x = RaisedOther).
Proof.
  intros Hentry. split.
  - intros (x & Hx & Hr). apply elem_of_cons in Hx as [-> | Hx]; [done|].
    by exists x.
  - intros (x & Hx & Hr). exists x. split; [by right | done].
Qed.

(** The load exits exactly when the conversion of some entry raises an
    exception other than [ValueError]. *)
Lemma load_entries_None (entries : list json_entry) :
  load_entries entries = None
  ↔ ∃ entry, entry ∈ entries ∧ convert_entry entry = RaisedOther.
Proof.
  induction entries as [|entry rest IH]; simpl.
  - split; [done | intros (? & H & _); inversion H].
  - destruct (convert_entry entry) as [members| |] eqn:Hconv.
    + rewrite raised_other_cons by congruence.
      case_decide; [done|]. by rewrite fmap_None.
    + by rewrite raised_other_cons by congruence.
    + split; [|done]. intros _. exists entry. split; [by left | done].
Qed.

Lemma converted_cons
    (entry : json_entry) (rest : list json_entry) (e : gset Z) :
  (∀ members, convert_entry entry = Members members →
              list_to_set members = (∅ : gset Z)) →
  (∃ x members, x ∈ entry :: rest ∧ convert_entry x = Members members
                ∧ e = list_to_set members ∧ e ≠ ∅)
  ↔ (∃ x members, x ∈ rest ∧ convert_entry x = Members members
                  ∧ e = list_to_set members ∧ e ≠ ∅).
Proof.
  intros Hentry. split.
  - intros (x & ms & Hx & Hms & -> & Hne).
    apply elem_of_cons in Hx as [-> | Hx].
    + by apply Hentry in Hms.
    + by exists x, ms.
  - intros (x & ms & Hx & Hms & -> & Hne). exists x, ms.
    split; [by right | done].
Qed.

(** When the load does not exit, the edges handed on are exactly the
    non-empty member sets of the entries that convert. *)
Lemma elem_of_load_entries
    (entries : list json_entry) (edges : list (gset Z)) (e : gset Z) :
  load_entries entries = Some edges →
  e ∈ edges ↔
  ∃ entry members,
    entry ∈ entries ∧ convert_entry entry = Members members
    ∧ e = list_to_set members ∧ e ≠ ∅.
Proof.
  revert edges. induction entries as [|entry rest IH]; intros edges; simpl.
  - intros [= <-].
    split; [intros H; inversion H | intros (? & ? & H & _); inversion H].
  - destruct (convert_entry entry) as [members| |] eqn:Hconv; [| |done].
    + case_decide as Hempty.
      * intros Hload. rewrite converted_cons; [by apply IH|].
        intros ms Hms. congruence.
      * intros Hload. apply fmap_Some in Hload as (edges' & Hload & ->).
        rewrite elem_of_cons, (IH _ Hload). split.
        -- intros [-> | (x & ms & Hx & Hms & -> & Hne)].
           ++ exists entry, members. split; [by left | done].
           ++ exists x, ms. split; [by right | done].
        -- intros (x & ms & Hx & Hms & -> & Hne).
           apply elem_of_cons in Hx as [-> | Hx].
           ++ left. congruence.
           ++ right. by exists x, ms.
    + intros Hload. rewrite converted_cons; [by apply IH|].
      intros ms Hms. congruence.
Qed.

Lemma load_entries_nonempty
    (entries : list json_entry) (edges : list (gset Z)) :
  load_entries entries = Some edges → Forall (λ e : gset Z, e ≠ ∅) edges.
Proof.
  intros Hload. apply Forall_forall. intros e He.
  apply (elem_of_load_entries _ _ _ Hload) in He as (? & ? & _ & _ & _ & Hne).
  done.
Qed.

(** On a file all of whose members convert or raise [ValueError], the
    conversion never raises anything else, the load never exits, and the
    loop is [hyperedges_for_hnx_constructor]. *)
Lemma convert_members_plain (he_list : list json_member) :
  convert_members (JMember <$> he_list)
  = match mapM py_int he_list with
    | Some members => Members members
    | None => RaisedValueError
    end.
Proof.
  induction he_list as [|m he_list IH]; [done|]. csimpl.
  destruct (py_int m) as [z|]; [|done]. csimpl. rewrite IH.
  by destruct (mapM py_int he_list).
Qed.

Lemma load_entries_plain (loaded : list (list json_member)) :
  load_entries (plain_entries loaded)
  = Some (hyperedges_for_hnx_constructor loaded).
Proof.
  induction loaded as [|he_list rest IH]; [done|].
  unfold plain_entries in *. csimpl. rewrite convert_members_plain.
  destruct (mapM py_int he_list) as [members|]; [|done].
  case_decide; [done|]. by rewrite IH.
Qed.

Lemma script3_run_plain (loaded : list (list json_member)) :
  script3_run (DocIterable (plain_entries loaded))
  = match script3 loaded with
    | Some (H, data) => Script3Built H data
    | None => Script3Skipped
    end.
Proof.
  unfold script3_run, script3, load_document. rewrite load_entries_plain.
  by destruct (hyperedges_for_hnx_constructor loaded).
Qed.

Lemma script4_reconstruct_plain (data : structure_data) :
  script4_reconstruct (DocIterable (plain_entries (hyperedges data)))
  = reconstruct_H data.
Proof.
  unfold script4_reconstruct, reconstruct_H, load_document.
  rewrite load_entries_plain.
  by destruct (hyperedges_for_hnx_constructor (hyperedges data)).
Qed.

(** Two parts of a file read one after the other: an exit in either part
    is an exit of the whole load, edges already collected included. *)
Lemma load_entries_app (l1 l2 : list json_entry) :
  load_entries (l1 ++ l2)
  = edges1 ← load_entries l1; edges2 ← load_entries l2; Some (edges1 ++ edges2).
Proof.
  induction l1 as [|entry l1 IH]; simpl.
  - by destruct (load_entries l2).
  - destruct (convert_entry entry) as [members| |]; [|done|done].
    case_decide; [done|]. rewrite IH.
    destruct (load_entries l1) as [edges1|]; [|done]. csimpl.
    by destruct (load_entries l2).
Qed.

Lemma load_entries_length
    (entries : list json_entry) (edges : list (gset Z)) :
  load_entries entries = Some edges → (length edges ≤ length entries)%nat.
Proof.
  revert edges. induction entries as [|entry rest IH]; intros edges; simpl.
  - by intros [= <-].
  - destruct (convert_entry entry) as [members| |]; [| |done].
    + case_decide.
      * intros Hload. apply IH in Hload. lia.
      * intros Hload. apply fmap_Some in Hload as (edges' & Hload & ->).
        apply IH in Hload. simpl. lia.
    + intros Hload. apply IH in Hload. lia.
Qed.

(** *** Claims on construction, serialization and the clustering driver *)

(** C1, as stated, fails on the code: the hyperedge list [[7]] (and
    [[7, 7]], whose duplicates collapse) is loaded as the one-member set
    [{7}], and script 3 builds and exports a hypergraph with that edge. *)
Lemma singleton_hyperedge_admitted_counterexample :
  hyperedges_for_hnx_constructor [[JInt 7]] = [ {[7]} ]
  ∧ hyperedges_for_hnx_constructor [[JInt 7; JInt 7]] = [ {[7]} ]
  ∧ size ({[7]} : gset Z) = 1%nat
  ∧ script3 [[JInt 7]]
    = Some (hnx_Hypergraph [ {[7]} ], {| nodes := [7]; hyperedges := [[JInt 7]] |}).
Proof. repeat split; vm_compute; reflexivity. Qed.

(** C1 (amended).  If the conversion of some entry raises an exception
    other than [ValueError], the load exits and no hyperedge reaches the
    hypergraph constructor.  Otherwise the loading loop passes to the
    constructor exactly the non-empty member sets of the entries that
    convert to integers (an entry whose conversion raises [ValueError] and an
    entry with no members are skipped): an empty hyperedge is never passed,
    but a hyperedge with exactly one member is.  Scripts 3 and 4 build their
    hypergraph from these sets, and only when there is at least one. *)
Theorem loaded_hyperedges_are_the_nonempty_ones (entries : list json_entry) :
  (load_entries entries = None
   ↔ ∃ entry, entry ∈ entries ∧ convert_entry entry = RaisedOther)
  ∧ (∀ edges : list (gset Z),
       load_entries entries = Some edges →
       (∀ e : gset Z,
          e ∈ edges ↔
          ∃ entry members,
            entry ∈ entries ∧ convert_entry entry = Members members
            ∧ e = list_to_set members ∧ e ≠ ∅)
       ∧ Forall (λ e : gset Z, (1 ≤ size e)%nat) edges
       ∧ (∀ x : Z, EIterable [JMember (JInt x)] ∈ entries →
            ({[ x ]} : gset Z) ∈ edges))
  ∧ (script3_run (DocIterable entries) = Script3Exit
     ↔ load_entries entries = None)
  ∧ (∀ (H : Hypergraph) (data : structure_data),
       script3_run (DocIterable entries) = Script3Built H data
       ↔ load_entries entries = Some (incidence_dict H)
         ∧ incidence_dict H ≠ [] ∧ data = hypergraph_structure_data H)
  ∧ (∀ H : Hypergraph,
       script4_reconstruct (DocIterable entries) = Some H
       ↔ load_entries entries = Some (incidence_dict H)
         ∧ incidence_dict H ≠ []).
Proof.
  split; [apply load_entries_None|].
  split; [|split; [|split]].
  - intros edges Hload. split; [|split].
    + intros e. by apply elem_of_load_entries.
    + eapply Forall_impl; [by eapply load_entries_nonempty|].
      intros e Hne. simpl in Hne.
      destruct (decide (size e = 0%nat)) as [Hz|Hz]; [|lia].
      apply size_empty_iff in Hz. apply leibniz_equiv in Hz. done.
    + intros x Hx. apply (elem_of_load_entries _ _ _ Hload).
      exists (EIterable [JMember (JInt x)]), [x].
      split; [done|]. split; [done|]. split.
      * simpl. by rewrite union_empty_r_L.
      * intros Hempty. assert (x ∈ (∅ : gset Z)) as Hin.
        { rewrite <- Hempty. by apply elem_of_singleton. }
        by apply not_elem_of_empty in Hin.
  - unfold script3_run, load_document.
    destruct (load_entries entries) as [[|e edges]|]; split; done.
  - intros [edges0] data. unfold script3_run, load_document, hnx_Hypergraph.
    destruct (load_entries entries) as [[|e edges]|]; simpl.
    + split; [done|]. intros ([= <-] & ? & _). done.
    + split.
      * intros [= <- <-]. done.
      * intros ([= <-] & _ & ->). done.
    + split; [done|]. intros (? & _). done.
  - intros [edges0]. unfold script4_reconstruct, load_document, hnx_Hypergraph.
    destruct (load_entries entries) as [[|e edges]|]; simpl.
    + split; [done|]. intros ([= <-] & ?). done.
    + split.
      * intros [= <-]. done.
      * intros ([= <-] & _). done.
    + split; [done|]. intros (? & _). done.
Qed.

Lemma loaded_hyperedges_are_the_nonempty_ones_witness :
  load_entries [EIterable [JMember (JInt 7)]; EIterable [JUnconvertible]] = None
  ∧ load_entries [EIterable [JMember (JInt 1); JMember (JInt 2)]; EIterable [];
                  EIterable [JMember (JNonInt "a")]; EIterable [JMember (JInt 7)]]
    = Some [ ({[1; 2]} : gset Z); {[7]} ]
  ∧ ({[ 7 ]} : gset Z) ∈ [ ({[1; 2]} : gset Z); {[7]} ].
Proof.
  split; [|split].
  - apply (proj1 (loaded_hyperedges_are_the_nonempty_ones
                    [EIterable [JMember (JInt 7)]; EIterable [JUnconvertible]])).
    exists (EIterable [JUnconvertible]). split; [|reflexivity].
    rewrite !elem_of_cons. tauto.
  - vm_compute. reflexivity.
  - assert (load_entries
              [EIterable [JMember (JInt 1); JMember (JInt 2)]; EIterable [];
               EIterable [JMember (JNonInt "a")]; EIterable [JMember (JInt 7)]]
            = Some [ ({[1; 2]} : gset Z); {[7]} ]) as Hload
      by (vm_compute; reflexivity).
    apply (proj2 (proj2 (proj1 (proj2 (loaded_hyperedges_are_the_nonempty_ones
             [EIterable [JMember (JInt 1); JMember (JInt 2)]; EIterable [];
              EIterable [JMember (JNonInt "a")]; EIterable [JMember (JInt 7)]]))
             _ Hload)) 7).
    rewrite !elem_of_cons. tauto.
Defined.

Lemma script3_builds_valid
    (loaded : list (list json_member)) (H : Hypergraph) (data : structure_data) :
  script3 loaded = Some (H, data) →
  incidence_dict H ≠ [] ∧ Forall (λ e : gset Z, e ≠ ∅) (incidence_dict H)
  ∧ data = hypergraph_structure_data H.
Proof.
  unfold script3. intros Hrun.
  pose proof (hyperedges_for_hnx_constructor_nonempty loaded) as Hne.
  destruct (hyperedges_for_hnx_constructor loaded) as [|e edges]; [discriminate|].
  injection Hrun as <- <-. done.
Qed.

Lemma round_trip_of_valid (H : Hypergraph) :
  incidence_dict H ≠ [] → Forall (λ e : gset Z, e ≠ ∅) (incidence_dict H) →
  reconstruct_H (hypergraph_structure_data H) = Some H.
Proof.
  intros Hedges Hne. unfold reconstruct_H. cbn [hyperedges hypergraph_structure_data].
  rewrite load_exported_edges by done.
  destruct H as [[|e edges]]; [done|]. done.
Qed.

(** The same structure file up to the order of its hyperedge lists and
    of the members inside each list. *)
Definition reordered (l l' : list (list json_member)) : Prop :=
  ∃ l'', l ≡ₚ l'' ∧ Forall2 (≡ₚ) l'' l'.

Definition edge_of (he_list : list json_member) : option (gset Z) :=
  list_to_set <$> mapM py_int he_list.

Lemma edge_of_perm (l l' : list json_member) : l ≡ₚ l' → edge_of l = edge_of l'.
Proof.
  unfold edge_of. induction 1 as [|x l l' _ IH|x y l|l1 l2 l3 _ IH1 _ IH2].
  - done.
  - simpl. destruct (py_int x) as [z|]; [|done]. simpl.
    destruct (mapM py_int l) as [ms|], (mapM py_int l') as [ms'|];
      simpl in *; try done.
    injection IH as IH. by rewrite IH.
  - simpl. destruct (py_int x) as [zx|], (py_int y) as [zy|]; simpl; try done.
    destruct (mapM py_int l) as [ms|]; simpl; [|done].
    f_equal. apply set_eq. intros z.
    rewrite !elem_of_union, !elem_of_singleton. tauto.
  - congruence.
Qed.

Lemma elem_of_loaded_edge_of (loaded : list (list json_member)) (e : gset Z) :
  e ∈ hyperedges_for_hnx_constructor loaded ↔
  ∃ he_list, he_list ∈ loaded ∧ edge_of he_list = Some e ∧ e ≠ ∅.
Proof.
  rewrite elem_of_hyperedges_for_hnx_constructor. unfold edge_of. split.
  - intros (l & ms & Hl & Hms & -> & Hne). exists l. by rewrite Hms.
  - intros (l & Hl & He & Hne). destruct (mapM py_int l) as [ms|] eqn:Hms; [|done].
    injection He as <-. by exists l, ms.
Qed.

Lemma loaded_reordered (l l' : list (list json_member)) (e : gset Z) :
  reordered l l' →
  e ∈ hyperedges_for_hnx_constructor l ↔ e ∈ hyperedges_for_hnx_constructor l'.
Proof.
  intros (l'' & Houter & Hinner). rewrite !elem_of_loaded_edge_of. split.
  - intros (he & Hhe & He & Hne). rewrite Houter in Hhe.
    destruct (list_elem_of_lookup_1 _ _ Hhe) as [i Hi].
    destruct (Forall2_lookup_l _ _ _ _ _ Hinner Hi) as (he' & Hhe' & Hperm).
    exists he'. split; [by eapply list_elem_of_lookup_2|].
    by rewrite <- (edge_of_perm _ _ Hperm).
  - intros (he' & Hhe' & He & Hne).
    destruct (list_elem_of_lookup_1 _ _ Hhe') as [i Hi].
    destruct (Forall2_lookup_r _ _ _ _ _ Hinner Hi) as (he & Hhe & Hperm).
    exists he. split; [rewrite Houter; by eapply list_elem_of_lookup_2|].
    by rewrite (edge_of_perm _ _ Hperm).
Qed.

Lemma H_nodes_ext (H1 H2 : Hypergraph) :
  (∀ e, e ∈ incidence_dict H1 ↔ e ∈ incidence_dict H2) → H_nodes H1 = H_nodes H2.
Proof.
  intros Hext. apply set_eq. intros x. unfold H_nodes.
  rewrite !elem_of_union_list. split; intros (e & He & Hx); exists e; split;
    try done; by apply Hext.
Qed.

(** C2.  For every hypergraph [H] that script 3 builds and exports,
    script 4 reconstructs from the exported structure a hypergraph with the
    same node set and the same hyperedge member sets (as a set and as a
    multiset), whose own export is the same structure again; the exported
    node list holds exactly the nodes of [H]; and the same node set and set
    of member sets are reconstructed from the exported structure with its
    hyperedge lists, and the members inside them, put in any other order. *)
Theorem serialization_round_trip
    (loaded : list (list json_member)) (H : Hypergraph) (data : structure_data) :
  script3 loaded = Some (H, data) →
  (∃ H', reconstruct_H data = Some H'
         ∧ H_nodes H' = H_nodes H
         ∧ (list_to_set (incidence_dict H') : gset (gset Z))
           = list_to_set (incidence_dict H)
         ∧ incidence_dict H' ≡ₚ incidence_dict H
         ∧ hypergraph_structure_data H' = data)
  ∧ (list_to_set (nodes data) : gset Z) = H_nodes H
  ∧ (∀ data' : structure_data,
       reordered (hyperedges data) (hyperedges data') →
       ∃ H', reconstruct_H data' = Some H'
             ∧ H_nodes H' = H_nodes H
             ∧ (list_to_set (incidence_dict H') : gset (gset Z))
               = list_to_set (incidence_dict H)).
Proof.
  intros Hrun. destruct (script3_builds_valid _ _ _ Hrun) as (Hedges & Hne & ->).
  pose proof (round_trip_of_valid H Hedges Hne) as Hround.
  split; [|split].
  - exists H. done.
  - cbn [nodes hypergraph_structure_data]. apply list_to_set_sorted_elements.
  - intros data' Hre.
    assert (∀ e, e ∈ hyperedges_for_hnx_constructor (hyperedges data')
                 ↔ e ∈ incidence_dict H) as Hext.
    { intros e. rewrite <- (loaded_reordered _ _ e Hre).
      unfold reconstruct_H in Hround.
      destruct (hyperedges_for_hnx_constructor
                  (hyperedges (hypergraph_structure_data H))) as [|e0 edges];
        [discriminate|].
      injection Hround as <-. done. }
    unfold reconstruct_H.
    destruct (hyperedges_for_hnx_constructor (hyperedges data')) as [|e' edges'] eqn:Hload.
    + destruct H as [[|e edges]]; [done|].
      exfalso. eapply not_elem_of_nil. apply Hext. simpl. left.
    + eexists. split; [done|]. split.
      * by apply H_nodes_ext.
      * apply set_eq. intros e. rewrite !elem_of_list_to_set. apply Hext.
Qed.

Lemma serialization_round_trip_witness :
  ∃ H', reconstruct_H {| nodes := [1; 2; 3];
                         hyperedges := [[JInt 1; JInt 3]; [JInt 2; JInt 3]] |} = Some H'
        ∧ H_nodes H' = H_nodes (hnx_Hypergraph [ {[1; 3]}; {[2; 3]} ])
        ∧ (list_to_set (incidence_dict H') : gset (gset Z))
          = list_to_set (incidence_dict (hnx_Hypergraph [ {[1; 3]}; {[2; 3]} ]))
        ∧ incidence_dict H' ≡ₚ incidence_dict (hnx_Hypergraph [ {[1; 3]}; {[2; 3]} ])
        ∧ hypergraph_structure_data H'
          = {| nodes := [1; 2; 3]; hyperedges := [[JInt 1; JInt 3]; [JInt 2; JInt 3]] |}.
Proof.
  apply (serialization_round_trip
           [[JInt 3; JInt 1]; [JInt 2; JInt 3; JInt 3]; []; [JNonInt "x"; JInt 4]]
           (hnx_Hypergraph [ {[1; 3]}; {[2; 3]} ])).
  vm_compute. reflexivity.
Defined.

(** C3, as stated, fails on the code: for a structure file with the nodes
    1, 2, 3 and no hyperedge, script 4 stops at its guard with an error,
    whatever the detector would do (the singleton detector of the
    specification included), and no partition is produced; the singleton
    assignment is only obtained when hyperedges are present. *)
Lemma zero_hyperedges_no_partition_counterexample :
  script4 singleton_detector true {| nodes := [1; 2; 3]; hyperedges := [] |}
    = ExitNoValidHyperedges
  ∧ (∀ kumar avail,
       script4 kumar avail {| nodes := [1; 2; 3]; hyperedges := [] |}
       = ExitNoValidHyperedges)
  ∧ script4 singleton_detector true
      {| nodes := [1; 2; 3]; hyperedges := [[JInt 1; JInt 2]; [JInt 3]] |}
    = SavedAssignments [(1, 0%nat); (2, 1%nat); (3, 2%nat)].
Proof. split; [|split]; [reflexivity | intros; reflexivity | vm_compute; reflexivity]. Qed.

(** C3 (amended).  Script 4 exits with an error, building no hypergraph
    and producing no partition, exactly when the structure file yields no
    valid hyperedge, whatever its node list and whatever the detector; a
    hypergraph that reaches the detector therefore has at least one
    hyperedge, and none of its hyperedges is empty. *)
Theorem zero_hyperedges_exit_before_detection
    (kumar : Hypergraph → option (list (gset Z))) (avail : bool) (data : structure_data) :
  (hyperedges_for_hnx_constructor (hyperedges data) = [] ↔
   script4 kumar avail data = ExitNoValidHyperedges)
  ∧ (hyperedges_for_hnx_constructor (hyperedges data) = [] ↔ reconstruct_H data = None)
  ∧ (∀ H, reconstruct_H data = Some H →
          incidence_dict H ≠ [] ∧ Forall (λ e : gset Z, e ≠ ∅) (incidence_dict H)).
Proof.
  unfold script4, reconstruct_H.
  pose proof (hyperedges_for_hnx_constructor_nonempty (hyperedges data)) as Hne.
  destruct (hyperedges_for_hnx_constructor (hyperedges data)) as [|e edges].
  - repeat split; try done.
  - split; [|split].
    + split; [discriminate|].
      destruct (bool_decide _ && avail); [|discriminate].
      destruct (kumar _) as [[|c cs]|]; try discriminate.
      case_decide; discriminate.
    + split; discriminate.
    + intros H [= <-]. done.
Qed.

Lemma zero_hyperedges_exit_before_detection_witness :
  script4 singleton_detector true {| nodes := [4; 5]; hyperedges := [[]; [JNonInt "a"]] |}
  = ExitNoValidHyperedges.
Proof.
  apply (proj1 (proj1 (zero_hyperedges_exit_before_detection singleton_detector true
           {| nodes := [4; 5]; hyperedges := [[]; [JNonInt "a"]] |}))).
  reflexivity.
Defined.

End HypergraphModel.

(** ** Script 2: the environment and family-within-environment views, and
       what the grouping views guarantee *)

Module GroupingViews.
Import Consolidator FamilyView.

(** The order of Python strings (byte-wise on these labels). *)
Definition string_le (a b : string) : Prop := String.leb a b = true.

#[global] Instance string_le_dec (a b : string) : Decision (string_le a b).
Proof. unfold string_le. apply _. Defined.

(** [individuals_df.groupby(environment_col)]: one group per distinct
    label, labels in ascending order, rows in table order. *)
Definition groupby_environment (rows : list IndividualRow)
  : list (string * list IndividualRow) :=
  (λ k, (k, filter (λ r, environment r = k) rows))
    <$> merge_sort string_le (remove_dups (environment <$> rows)).

(** The body shared by the loops over environment groups. *)
Definition environment_group_hyperedge (min_size : Z) (g : string * list IndividualRow)
  : option Hyperedge :=
  if decide (min_size ≤ Z.of_nat (length g.2))
  then Some (list_to_set (individual_id <$> g.2)) else None.

Definition get_environment_hyperedges (individuals_df : list IndividualRow) (min_env_size : Z)
  : list Hyperedge :=
  if bool_decide (individuals_df = []) then []
  else
    let grouped_by_environment := groupby_environment individuals_df in
    unique_hyperedges (omap (environment_group_hyperedge min_env_size) grouped_by_environment).

(** The two nested loops of [get_family_in_env_hyperedges]; this function
    has no test on [individuals_df.empty]. *)
Definition get_family_in_env_hyperedges (individuals_df : list IndividualRow) (min_size : Z)
  : list Hyperedge :=
  let valid_families := filter (λ r, family_id r ≠ -1) individuals_df in
  let combined_hyperedges :=
    mjoin ((λ fam : Z * list IndividualRow,
              omap (environment_group_hyperedge min_size) (groupby_environment fam.2))
           <$> groupby_family valid_families) in
  unique_hyperedges combined_hyperedges.

(** The members of the rows of a table with a given family id, or with a
    given environment label. *)
Definition family_members (df : list IndividualRow) (k : Z) : list IndividualRow :=
  filter (λ r, family_id r = k) df.

Definition environment_members (df : list IndividualRow) (v : string) : list IndividualRow :=
  filter (λ r, environment r = v) df.

Definition ids_of (rows : list IndividualRow) : gset Z :=
  list_to_set (individual_id <$> rows).

(** *** Groups *)

Lemma elem_of_groupby_family_iff (rows : list IndividualRow) (g : Z * list IndividualRow) :
  g ∈ groupby_family rows ↔
  ∃ k, (∃ r, r ∈ rows ∧ family_id r = k) ∧ g = (k, family_members rows k).
Proof.
  unfold groupby_family. rewrite list_elem_of_fmap. split.
  - intros (k & -> & Hk). exists k. split; [|done].
    rewrite merge_sort_Permutation, elem_of_remove_dups, list_elem_of_fmap in Hk.
    destruct Hk as (r & -> & Hr). by exists r.
  - intros (k & (r & Hr & Hk) & ->). exists k. split; [done|].
    rewrite merge_sort_Permutation, elem_of_remove_dups, list_elem_of_fmap.
    by exists r.
Qed.

Lemma elem_of_groupby_environment_iff
    (rows : list IndividualRow) (g : string * list IndividualRow) :
  g ∈ groupby_environment rows ↔
  ∃ v, (∃ r, r ∈ rows ∧ environment r = v) ∧ g = (v, environment_members rows v).
Proof.
  unfold groupby_environment. rewrite list_elem_of_fmap. split.
  - intros (k & -> & Hk). exists k. split; [|done].
    rewrite merge_sort_Permutation, elem_of_remove_dups, list_elem_of_fmap in Hk.
    destruct Hk as (r & -> & Hr). by exists r.
  - intros (k & (r & Hr & Hk) & ->). exists k. split; [done|].
    rewrite merge_sort_Permutation, elem_of_remove_dups, list_elem_of_fmap.
    by exists r.
Qed.

Lemma family_members_valid (df : list IndividualRow) (k : Z) :
  k ≠ -1 →
  family_members (filter (λ r, family_id r ≠ -1) df) k = family_members df k.
Proof.
  intros Hk. unfold family_members. induction df as [|r df IH]; [done|].
  rewrite !filter_cons. destruct (decide (family_id r = k)) as [Heq|Hne].
  - rewrite decide_True by congruence. rewrite filter_cons, decide_True by done.
    by rewrite IH.
  - case_decide; [|done]. rewrite filter_cons, decide_False by done. done.
Qed.

Lemma elem_of_ids_of (rows : list IndividualRow) (x : Z) :
  x ∈ ids_of rows ↔ ∃ r, r ∈ rows ∧ individual_id r = x.
Proof.
  unfold ids_of. rewrite elem_of_list_to_set, list_elem_of_fmap.
  split; intros (r & H1 & H2); exists r; done.
Qed.

Lemma unique_ids_row (df : list IndividualRow) (r1 r2 : IndividualRow) :
  NoDup (individual_id <$> df) → r1 ∈ df → r2 ∈ df →
  individual_id r1 = individual_id r2 → r1 = r2.
Proof.
  induction df as [|r df IH]; [intros _ H; inversion H|].
  rewrite fmap_cons, NoDup_cons, !elem_of_cons.
  intros [Hnotin Hnd] [->|H1] [->|H2] Hid; try done.
  - destruct Hnotin. rewrite Hid. by apply list_elem_of_fmap_2.
  - destruct Hnotin. rewrite <- Hid. by apply list_elem_of_fmap_2.
  - by apply IH.
Qed.

Lemma size_ids_of_filter (P : IndividualRow → Prop) `{!∀ r, Decision (P r)}
    (df : list IndividualRow) :
  NoDup (individual_id <$> df) →
  size (ids_of (filter P df)) = length (filter P df).
Proof.
  intros Hnd. unfold ids_of. rewrite size_list_to_set, length_fmap; [done|].
  eapply sublist_NoDup; [done|]. apply fmap_sublist, sublist_filter.
Qed.

(** *** What an emitted hyperedge is *)

Lemma family_hyperedge_inv (df : list IndividualRow) (m : Z) (e : gset Z) :
  e ∈ get_family_hyperedges df m →
  ∃ k, k ≠ -1 ∧ (∃ r, r ∈ df ∧ family_id r = k)
       ∧ m ≤ Z.of_nat (length (family_members df k))
       ∧ e = ids_of (family_members df k).
Proof.
  unfold get_family_hyperedges. case_bool_decide; [intros H'; inversion H'|].
  rewrite elem_of_unique_hyperedges, list_elem_of_omap.
  intros (g & Hg & He). apply elem_of_groupby_family_iff in Hg as (k & (r & Hr & Hk) & ->).
  apply list_elem_of_filter in Hr as [Hvalid Hr].
  assert (k ≠ -1) as Hk' by congruence.
  unfold family_group_hyperedge in He. simpl in He.
  rewrite family_members_valid in He by done.
  case_decide; [|discriminate]. injection He as <-.
  exists k. split; [done|]. split; [by exists r|]. done.
Qed.

Lemma environment_hyperedge_inv (df : list IndividualRow) (m : Z) (e : gset Z) :
  e ∈ get_environment_hyperedges df m →
  ∃ v, (∃ r, r ∈ df ∧ environment r = v)
       ∧ m ≤ Z.of_nat (length (environment_members df v))
       ∧ e = ids_of (environment_members df v).
Proof.
  unfold get_environment_hyperedges. case_bool_decide; [intros H'; inversion H'|].
  rewrite elem_of_unique_hyperedges, list_elem_of_omap.
  intros (g & Hg & He).
  apply elem_of_groupby_environment_iff in Hg as (v & (r & Hr & Hv) & ->).
  unfold environment_group_hyperedge in He. simpl in He.
  case_decide; [|discriminate]. injection He as <-.
  exists v. split; [by exists r|]. done.
Qed.

Lemma environment_hyperedge_intro (df : list IndividualRow) (m : Z) (v : string) :
  (∃ r, r ∈ df ∧ environment r = v) →
  m ≤ Z.of_nat (length (environment_members df v)) →
  ids_of (environment_members df v) ∈ get_environment_hyperedges df m.
Proof.
  intros (r & Hr & Hv) Hm. unfold get_environment_hyperedges.
  rewrite bool_decide_eq_false_2 by (intros ->; inversion Hr).
  rewrite elem_of_unique_hyperedges, list_elem_of_omap.
  exists (v, environment_members df v). split.
  - apply elem_of_groupby_environment_iff. exists v. split; [by exists r|done].
  - unfold environment_group_hyperedge. simpl. by rewrite decide_True.
Qed.

Lemma family_hyperedge_intro (df : list IndividualRow) (m : Z) (k : Z) :
  k ≠ -1 → (∃ r, r ∈ df ∧ family_id r = k) →
  m ≤ Z.of_nat (length (family_members df k)) →
  ids_of (family_members df k) ∈ get_family_hyperedges df m.
Proof.
  intros Hk (r & Hr & Hfam) Hm. unfold get_family_hyperedges.
  rewrite bool_decide_eq_false_2 by (intros ->; inversion Hr).
  rewrite elem_of_unique_hyperedges, list_elem_of_omap.
  exists (k, family_members (filter (λ r, family_id r ≠ -1) df) k). split.
  - apply elem_of_groupby_family_iff. exists k. split; [|done].
    exists r. split; [|done]. apply list_elem_of_filter. split; [congruence|done].
  - unfold family_group_hyperedge. simpl. rewrite family_members_valid by done.
    by rewrite decide_True.
Qed.

(** The family view emits exactly the whole families that are large
    enough: a set is in the result if and only if it is the set of _all_
    individuals of some family id other than -1 that has at least
    [min_family_size] rows in the table. *)
Theorem family_hyperedges_are_whole_families
    (df : list IndividualRow) (min_family_size : Z) (e : gset Z) :
  e ∈ get_family_hyperedges df min_family_size ↔
  ∃ k, k ≠ -1 ∧ (∃ r, r ∈ df ∧ family_id r = k)
       ∧ min_family_size ≤ Z.of_nat (length (family_members df k))
       ∧ ∀ x, x ∈ e ↔ ∃ r, r ∈ df ∧ family_id r = k ∧ individual_id r = x.
Proof.
  assert (∀ k x, x ∈ ids_of (family_members df k)
                 ↔ ∃ r, r ∈ df ∧ family_id r = k ∧ individual_id r = x) as Hmem.
  { intros k x. rewrite elem_of_ids_of. unfold family_members.
    split; intros (r & Hr & Hx); exists r.
    - apply list_elem_of_filter in Hr. tauto.
    - split; [|tauto]. apply list_elem_of_filter. tauto. }
  split.
  - intros He. destruct (family_hyperedge_inv _ _ _ He) as (k & Hk & Hex & Hlen & ->).
    exists k. repeat (split; [done|]). apply Hmem.
  - intros (k & Hk & Hex & Hlen & He).
    assert (e = ids_of (family_members df k)) as ->.
    { apply set_eq. intros x. rewrite He, Hmem. done. }
    by apply family_hyperedge_intro.
Qed.

(** When the individual ids of the table are unique, every family
    hyperedge has at least [min_family_size] members and two different
    family hyperedges share no individual. *)
Theorem family_hyperedges_large_and_disjoint
    (df : list IndividualRow) (min_family_size : Z) :
  NoDup (individual_id <$> df) →
  (∀ e, e ∈ get_family_hyperedges df min_family_size →
        min_family_size ≤ Z.of_nat (size e))
  ∧ (∀ e1 e2, e1 ∈ get_family_hyperedges df min_family_size →
              e2 ∈ get_family_hyperedges df min_family_size →
              e1 ≠ e2 → e1 ## e2).
Proof.
  intros Hnd. split.
  - intros e He. destruct (family_hyperedge_inv _ _ _ He) as (k & _ & _ & Hlen & ->).
    unfold family_members. by rewrite size_ids_of_filter.
  - intros e1 e2 He1 He2 Hne.
    destruct (family_hyperedge_inv _ _ _ He1) as (k1 & _ & _ & _ & ->).
    destruct (family_hyperedge_inv _ _ _ He2) as (k2 & _ & _ & _ & ->).
    apply elem_of_disjoint. intros x Hx1 Hx2.
    apply elem_of_ids_of in Hx1 as (r1 & Hr1 & Hid1).
    apply elem_of_ids_of in Hx2 as (r2 & Hr2 & Hid2).
    apply list_elem_of_filter in Hr1 as [Hk1 Hr1].
    apply list_elem_of_filter in Hr2 as [Hk2 Hr2].
    assert (r1 = r2) as -> by (eapply unique_ids_row; [done..|congruence]).
    apply Hne. congruence.
Qed.

Lemma family_hyperedges_large_and_disjoint_witness :
  (∀ e, e ∈ get_family_hyperedges scenarioB_with_unassigned 3 → 3 ≤ Z.of_nat (size e))
  ∧ (∀ e1 e2, e1 ∈ get_family_hyperedges scenarioB_with_unassigned 3 →
              e2 ∈ get_family_hyperedges scenarioB_with_unassigned 3 →
              e1 ≠ e2 → e1 ## e2).
Proof.
  apply (family_hyperedges_large_and_disjoint scenarioB_with_unassigned 3).
  vm_compute. repeat constructor; rewrite ?elem_of_cons, ?elem_of_nil; lia.
Defined.

(** When the individual ids are unique, every environment hyperedge has
    at least [min_env_size] members, two different environment hyperedges
    share no individual and, when [min_env_size] is at most 1, every
    individual of the table is in an environment hyperedge: the view is then
    a partition of the individuals by environment label. *)
Theorem environment_hyperedges_partition
    (df : list IndividualRow) (min_env_size : Z) :
  NoDup (individual_id <$> df) →
  (∀ e, e ∈ get_environment_hyperedges df min_env_size →
        min_env_size ≤ Z.of_nat (size e))
  ∧ (∀ e1 e2, e1 ∈ get_environment_hyperedges df min_env_size →
              e2 ∈ get_environment_hyperedges df min_env_size →
              e1 ≠ e2 → e1 ## e2)
  ∧ (min_env_size ≤ 1 →
     ∀ r, r ∈ df →
          ∃ e, e ∈ get_environment_hyperedges df min_env_size ∧ individual_id r ∈ e).
Proof.
  intros Hnd. split; [|split].
  - intros e He. destruct (environment_hyperedge_inv _ _ _ He) as (v & _ & Hlen & ->).
    unfold environment_members. by rewrite size_ids_of_filter.
  - intros e1 e2 He1 He2 Hne.
    destruct (environment_hyperedge_inv _ _ _ He1) as (v1 & _ & _ & ->).
    destruct (environment_hyperedge_inv _ _ _ He2) as (v2 & _ & _ & ->).
    apply elem_of_disjoint. intros x Hx1 Hx2.
    apply elem_of_ids_of in Hx1 as (r1 & Hr1 & Hid1).
    apply elem_of_ids_of in Hx2 as (r2 & Hr2 & Hid2).
    apply list_elem_of_filter in Hr1 as [Hv1 Hr1].
    apply list_elem_of_filter in Hr2 as [Hv2 Hr2].
    assert (r1 = r2) as -> by (eapply unique_ids_row; [done..|congruence]).
    apply Hne. congruence.
  - intros Hmin r Hr. exists (ids_of (environment_members df (environment r))).
    assert (r ∈ environment_members df (environment r)) as Hin
      by (apply list_elem_of_filter; done).
    split.
    + apply environment_hyperedge_intro; [by exists r|].
      destruct (environment_members df (environment r)); [inversion Hin|].
      simpl. lia.
    + apply elem_of_ids_of. by exists r.
Qed.

Lemma environment_hyperedges_partition_witness :
  ∃ e, e ∈ get_environment_hyperedges scenarioB_table 1 ∧ 4 ∈ e.
Proof.
  apply (proj2 (proj2 (environment_hyperedges_partition scenarioB_table 1
                         ltac:(vm_compute;
                               repeat constructor;
                               rewrite ?elem_of_cons, ?elem_of_nil; lia)))
           ltac:(lia) (mk_row 4 1)).
  unfold scenarioB_table. rewrite !elem_of_cons. tauto.
Defined.

Lemma length_filter_filter_le {A} (P Q : A → Prop)
    `{!∀ x, Decision (P x)} `{!∀ x, Decision (Q x)} (l : list A) :
  (length (filter P (filter Q l)) ≤ length (filter P l))%nat.
Proof.
  induction l as [|x l IH]; [done|].
  rewrite !filter_cons. destruct (decide (Q x)), (decide (P x)); simpl;
    rewrite ?filter_cons; repeat case_decide; simpl; try done; lia.
Qed.

Lemma family_in_env_hyperedge_inv (df : list IndividualRow) (m : Z) (e : gset Z) :
  e ∈ get_family_in_env_hyperedges df m →
  ∃ k v, k ≠ -1
         ∧ (∃ r, r ∈ df ∧ family_id r = k ∧ environment r = v)
         ∧ m ≤ Z.of_nat (length (environment_members (family_members df k) v))
         ∧ e = ids_of (environment_members (family_members df k) v).
Proof.
  unfold get_family_in_env_hyperedges.
  rewrite elem_of_unique_hyperedges, list_elem_of_join.
  intros (hs & He & Hhs). apply list_elem_of_fmap in Hhs as (fam & -> & Hfam).
  apply elem_of_groupby_family_iff in Hfam as (k & (r0 & Hr0 & Hk0) & ->).
  apply list_elem_of_filter in Hr0 as [Hvalid Hr0].
  assert (k ≠ -1) as Hk by congruence.
  simpl in He. rewrite family_members_valid in He by done.
  apply list_elem_of_omap in He as (g & Hg & He).
  apply elem_of_groupby_environment_iff in Hg as (v & (r & Hr & Hv) & ->).
  unfold environment_group_hyperedge in He. simpl in He.
  case_decide; [|discriminate]. injection He as <-.
  exists k, v. split; [done|]. split; [|done].
  apply list_elem_of_filter in Hr as [Hfam Hr]. by exists r.
Qed.

(** Every family-within-environment hyperedge lies inside one family and
    inside one environment: it is a subset of an emitted family hyperedge
    and of an emitted environment hyperedge, as soon as the minimum sizes of
    those views are not larger than its own. *)
Theorem family_in_env_refines_family_and_environment
    (df : list IndividualRow) (min_family_size min_env_size min_size : Z) (e : gset Z) :
  min_family_size ≤ min_size → min_env_size ≤ min_size →
  e ∈ get_family_in_env_hyperedges df min_size →
  (∃ ef, ef ∈ get_family_hyperedges df min_family_size ∧ e ⊆ ef)
  ∧ (∃ ee, ee ∈ get_environment_hyperedges df min_env_size ∧ e ⊆ ee).
Proof.
  intros Hfam Henv He.
  destruct (family_in_env_hyperedge_inv _ _ _ He)
    as (k & v & Hk & (r & Hr & Hrk & Hrv) & Hlen & ->).
  split.
  - exists (ids_of (family_members df k)). split.
    + apply family_hyperedge_intro; [done|by exists r|].
      pose proof (length_filter (λ r, environment r = v) (family_members df k)).
      unfold environment_members in Hlen. lia.
    + intros x. rewrite !elem_of_ids_of. intros (r' & Hr' & Hx).
      exists r'. split; [|done].
      unfold environment_members in Hr'. apply list_elem_of_filter in Hr'. tauto.
  - exists (ids_of (environment_members df v)). split.
    + apply environment_hyperedge_intro; [by exists r|].
      pose proof (length_filter_filter_le (λ r, environment r = v)
                    (λ r, family_id r = k) df).
      unfold environment_members, family_members in *. lia.
    + intros x. rewrite !elem_of_ids_of. intros (r' & Hr' & Hx).
      exists r'. split; [|done].
      unfold environment_members, family_members in *.
      rewrite !list_elem_of_filter in Hr'. apply list_elem_of_filter. tauto.
Qed.

Lemma family_in_env_refines_family_and_environment_witness :
  (∃ ef, ef ∈ get_family_hyperedges scenarioB_with_unassigned 2 ∧ {[4; 5]} ⊆ ef)
  ∧ (∃ ee, ee ∈ get_environment_hyperedges scenarioB_with_unassigned 2 ∧ {[4; 5]} ⊆ ee).
Proof.
  apply (family_in_env_refines_family_and_environment
           scenarioB_with_unassigned 2 2 2 {[4; 5]}); [lia | lia |].
  assert (get_family_in_env_hyperedges scenarioB_with_unassigned 2
          = [ {[1; 2; 3]}; {[4; 5]} ]) as -> by (vm_compute; reflexivity).
  rewrite !elem_of_cons. tauto.
Defined.

End GroupingViews.

(** ** Script 2: bounds on the genetic-distance threshold view, and the
       genetic k-nearest-neighbour view *)

Module GeneticViews.
Import Consolidator GeneticThreshold.

Lemma length_unique_hyperedges_le (l : list (gset Z)) :
  (length (unique_hyperedges l) ≤ length l)%nat.
Proof.
  apply submseteq_length, NoDup_submseteq; [apply NoDup_unique_hyperedges|].
  intros e. by rewrite elem_of_unique_hyperedges.
Qed.

Lemma length_omap_le {A B} (f : A → option B) (l : list A) :
  (length (omap f l) ≤ length l)%nat.
Proof. induction l as [|x l IH]; csimpl; [done|]. destruct (f x); csimpl; lia. Qed.

Lemma size_list_to_set_le (l : list Z) :
  (size (list_to_set l : gset Z) ≤ length l)%nat.
Proof.
  unfold size, set_size. simpl.
  apply submseteq_length, NoDup_submseteq; [apply NoDup_elements|].
  intros x. by rewrite elem_of_elements, elem_of_list_to_set.
Qed.

(** Whatever the threshold, the threshold view returns at most one
    hyperedge per row of the matrix, every member of a hyperedge is a column
    label, no hyperedge has more members than the matrix has columns, and a
    minimum size above the number of columns gives no hyperedge at all. *)
Theorem genetic_threshold_bounds (df : DistFrame) (thr : float) (min_size : Z) :
  (length (get_genetic_distance_threshold_hyperedges df thr min_size)
   ≤ length (index df))%nat
  ∧ (∀ e, e ∈ get_genetic_distance_threshold_hyperedges df thr min_size →
          e ⊆ list_to_set (columns df)
          ∧ (size e ≤ length (columns df))%nat
          ∧ min_size ≤ Z.of_nat (length (columns df)))
  ∧ (Z.of_nat (length (columns df)) < min_size →
     get_genetic_distance_threshold_hyperedges df thr min_size = []).
Proof.
  assert (∀ e, e ∈ get_genetic_distance_threshold_hyperedges df thr min_size →
               e ⊆ list_to_set (columns df)
               ∧ (size e ≤ length (columns df))%nat
               ∧ min_size ≤ Z.of_nat (length (columns df))) as Hmem.
  { intros e. unfold get_genetic_distance_threshold_hyperedges.
    destruct (df_empty df); [intros H; inversion H|].
    rewrite elem_of_unique_hyperedges, list_elem_of_omap.
    intros (i & _ & He). unfold row_hyperedge in He.
    case_decide as Hmin; [|discriminate]. injection He as <-.
    pose proof (close_neighbor_ids_sublist (columns df) (iloc df i) thr) as Hsub.
    pose proof (sublist_length _ _ Hsub) as Hlen.
    split; [|split].
    - intros x. rewrite !elem_of_list_to_set. by apply sublist_subseteq.
    - etrans; [apply size_list_to_set_le|exact Hlen].
    - lia. }
  split; [|split]; [|done|].
  - unfold get_genetic_distance_threshold_hyperedges.
    destruct (df_empty df); [simpl; lia|].
    etrans; [apply length_unique_hyperedges_le|].
    etrans; [apply length_omap_le|]. by rewrite length_seq.
  - intros Hbig.
    destruct (get_genetic_distance_threshold_hyperedges df thr min_size) as [|e l] eqn:Hres;
      [done|].
    destruct (Hmem e) as (_ & _ & Hmin); [left|lia].
Qed.

Lemma genetic_threshold_bounds_witness :
  get_genetic_distance_threshold_hyperedges pair_frame 0.1 3 = [].
Proof.
  apply (proj2 (proj2 (genetic_threshold_bounds pair_frame 0.1 3))).
  simpl. lia.
Defined.

(** *** The genetic k-nearest-neighbour view *)

(** [Series.head(n)]: the first [n] entries, or all but the last [-n] when
    [n] is negative. *)
Definition head {A} (n : Z) (s : list A) : list A :=
  if decide (0 ≤ n) then take (Z.to_nat n) s
  else take (length s - Z.to_nat (- n)) s.

(** [genetic_dist_df.iloc[i]] as a series: the entries of the row, each
    under its column label. *)
Definition row_series (df : DistFrame) (i : nat) : list (Z * float) :=
  zip (columns df) (iloc df i).

Section Knn.

(** [Series.sort_values()] of pandas: the entries in ascending order of
    value.  How it orders entries of equal value is not fixed (its default
    sort is not stable), so only what every such sort does is assumed: it
    returns the same entries. *)
Variable sort_values : list (Z * float) → list (Z * float).
Hypothesis sort_values_permutation : ∀ s, sort_values s ≡ₚ s.

Definition knn_row_hyperedge (df : DistFrame) (k : Z) (i : nat) : Hyperedge :=
  let distances_to_individual := sort_values (row_series df i) in
  let neighbor_ids_series := (head (k + 1) distances_to_individual).*1 in
  list_to_set neighbor_ids_series.

Definition get_genetic_knn_hyperedges (genetic_dist_df : DistFrame) (k : Z) : list Hyperedge :=
  if df_empty genetic_dist_df then []
  else unique_hyperedges
         (knn_row_hyperedge genetic_dist_df k <$> seq 0 (length (index genetic_dist_df))).

Lemma head_sublist {A} (n : Z) (s : list A) : sublist (head n s) s.
Proof. unfold head. case_decide; apply sublist_take. Qed.

Lemma length_head {A} (n : Z) (s : list A) :
  0 ≤ n ≤ Z.of_nat (length s) → length (head n s) = Z.to_nat n.
Proof.
  intros Hn. unfold head. rewrite decide_True by lia.
  rewrite length_take. lia.
Qed.

Lemma sorted_labels (df : DistFrame) (i : nat) :
  length (iloc df i) = length (columns df) →
  (sort_values (row_series df i)).*1 ≡ₚ columns df.
Proof.
  intros Hlen. rewrite sort_values_permutation. unfold row_series.
  rewrite fst_zip by lia. done.
Qed.

(** For a matrix with duplicate-free column labels and rows of full
    width, and for [0 ≤ k + 1 ≤] the number of columns, every hyperedge of
    the k-nearest-neighbour view has exactly [k + 1] members, all of them
    column labels, and the view returns at most one hyperedge per row. *)
Theorem genetic_knn_hyperedge_size (df : DistFrame) (k : Z) :
  NoDup (columns df) →
  (∀ i, (i < length (index df))%nat → length (iloc df i) = length (columns df)) →
  0 ≤ k + 1 ≤ Z.of_nat (length (columns df)) →
  (∀ e, e ∈ get_genetic_knn_hyperedges df k →
        Z.of_nat (size e) = k + 1 ∧ e ⊆ list_to_set (columns df))
  ∧ (length (get_genetic_knn_hyperedges df k) ≤ length (index df))%nat.
Proof.
  intros Hnd Hwidth Hk. split.
  - intros e. unfold get_genetic_knn_hyperedges.
    destruct (df_empty df); [intros H; inversion H|].
    rewrite elem_of_unique_hyperedges, list_elem_of_fmap.
    intros (i & -> & Hi). apply elem_of_seq in Hi as [_ Hi]. simpl in Hi.
    pose proof (sorted_labels df i (Hwidth i Hi)) as Hperm.
    unfold knn_row_hyperedge.
    set (s := sort_values (row_series df i)) in *.
    assert (sublist ((head (k + 1) s).*1) (s.*1)) as Hsub
      by apply fmap_sublist, head_sublist.
    assert (NoDup (s.*1)) as Hnd' by (by rewrite Hperm).
    split.
    + rewrite size_list_to_set by (eapply sublist_NoDup; done).
      rewrite length_fmap, length_head; [lia|].
      assert (length s = length (columns df)) as ->; [|lia].
      rewrite <- (length_fmap fst s). by rewrite Hperm.
    + intros x. rewrite !elem_of_list_to_set. intros Hx.
      rewrite <- Hperm. by eapply sublist_subseteq.
  - unfold get_genetic_knn_hyperedges. destruct (df_empty df); [simpl; lia|].
    etrans; [apply length_unique_hyperedges_le|].
    by rewrite length_fmap, length_seq.
Qed.

End Knn.

(** One sort that pandas may perform: a stable merge sort on the values. *)
Definition series_le (p q : Z * float) : Prop := PrimFloat.leb p.2 q.2 = true.

#[global] Instance series_le_dec (p q : Z * float) : Decision (series_le p q).
Proof. unfold series_le. apply _. Defined.

Definition stable_sort_values (s : list (Z * float)) : list (Z * float) :=
  merge_sort series_le s.

Lemma genetic_knn_hyperedge_size_witness :
  (∀ e, e ∈ get_genetic_knn_hyperedges stable_sort_values pair_frame 1 →
        Z.of_nat (size e) = 1 + 1 ∧ e ⊆ list_to_set (columns pair_frame))
  ∧ (length (get_genetic_knn_hyperedges stable_sort_values pair_frame 1)
     ≤ length (index pair_frame))%nat.
Proof.
  apply (genetic_knn_hyperedge_size stable_sort_values
           (λ s, merge_sort_Permutation series_le s) pair_frame 1).
  - simpl. repeat constructor; rewrite ?elem_of_cons, ?elem_of_nil; lia.
  - intros [|[|i]] Hi; simpl in *; [reflexivity | reflexivity | lia].
  - simpl. lia.
Defined.

Section KnnEdgeCases.

Variable sort_values : list (Z * float) → list (Z * float).
Hypothesis sort_values_permutation : ∀ s, sort_values s ≡ₚ s.

Lemma knn_rows_constant (df : DistFrame) (k : Z) (e0 : gset Z) :
  df_empty df = false →
  (∀ i, (i < length (index df))%nat → knn_row_hyperedge sort_values df k i = e0) →
  get_genetic_knn_hyperedges sort_values df k = [e0].
Proof.
  intros Hne Hrows. unfold get_genetic_knn_hyperedges. rewrite Hne.
  apply unique_hyperedges_singleton_set. intros e.
  rewrite list_elem_of_fmap. split.
  - intros (i & -> & Hi). apply elem_of_seq in Hi as [_ Hi]. by apply Hrows.
  - intros ->. unfold df_empty in Hne. apply orb_false_elim in Hne as [Hidx _].
    apply bool_decide_eq_false in Hidx.
    exists 0%nat. split.
    + symmetry. apply Hrows. destruct (index df); [done|simpl; lia].
    + apply elem_of_seq. destruct (index df); [done|simpl; lia].
Qed.

(** Edge values of [k] in the k-nearest-neighbour view, for a non-empty
    matrix with rows of full width: when [k + 1] is at least the number of
    columns, the view returns the single hyperedge of all column labels; when
    [k] is [-1], it returns a single _empty_ hyperedge. *)
Theorem genetic_knn_edge_values (df : DistFrame) (k : Z) :
  df_empty df = false →
  (∀ i, (i < length (index df))%nat → length (iloc df i) = length (columns df)) →
  (Z.of_nat (length (columns df)) ≤ k + 1 →
   get_genetic_knn_hyperedges sort_values df k = [list_to_set (columns df)])
  ∧ (k = -1 → get_genetic_knn_hyperedges sort_values df k = [∅]).
Proof.
  intros Hne Hwidth. split.
  - intros Hk. apply knn_rows_constant; [done|]. intros i Hi.
    unfold knn_row_hyperedge, head. rewrite decide_True by lia.
    pose proof (sorted_labels sort_values sort_values_permutation df i (Hwidth i Hi))
      as Hperm.
    rewrite take_ge.
    + apply set_eq. intros x. by rewrite !elem_of_list_to_set, Hperm.
    + rewrite <- (length_fmap fst), Hperm. lia.
  - intros ->. apply knn_rows_constant; [done|]. intros i Hi.
    unfold knn_row_hyperedge, head. change (-1 + 1) with 0.
    rewrite decide_True by lia. by rewrite take_0.
Qed.

End KnnEdgeCases.

Lemma genetic_knn_edge_values_witness :
  get_genetic_knn_hyperedges stable_sort_values pair_frame 5 = [list_to_set [0; 1]]
  ∧ get_genetic_knn_hyperedges stable_sort_values pair_frame (-1) = [∅].
Proof.
  split.
  - apply (proj1 (genetic_knn_edge_values stable_sort_values
                    (λ s, merge_sort_Permutation series_le s) pair_frame 5
                    eq_refl
                    (λ i Hi, match i, Hi with
                             | 0%nat, _ => eq_refl
                             | 1%nat, _ => eq_refl
                             | S (S _), Hi => ltac:(simpl in Hi; lia)
                             end))).
    simpl. lia.
  - apply (proj2 (genetic_knn_edge_values stable_sort_values
                    (λ s, merge_sort_Permutation series_le s) pair_frame (-1)
                    eq_refl
                    (λ i Hi, match i, Hi with
                             | 0%nat, _ => eq_refl
                             | 1%nat, _ => eq_refl
                             | S (S _), Hi => ltac:(simpl in Hi; lia)
                             end))).
    reflexivity.
Defined.

End GeneticViews.

(** ** The order of binary64 floats, from the specification of the
       primitive comparisons *)

Module FloatOrder.

Lemma SFcompare_antisym (a b : spec_float) :
  SFcompare b a = option_map CompOpp (SFcompare a b).
Proof.
  destruct a as [sa|sa| |sa ma ea], b as [sb|sb| |sb mb eb]; simpl; try done;
    try (destruct sa; done); try (destruct sb; done);
    try (destruct sa, sb; done).
  destruct sa, sb; simpl; try done;
    rewrite (Z.compare_antisym ea eb); destruct (ea ?= eb)%Z; simpl; try done;
    rewrite !Pos.compare_cont_spec; simpl; rewrite (Pos.compare_antisym ma mb);
    by destruct (ma ?= mb)%positive.
Qed.

Lemma SFcompare_Lt_trans (a b c : spec_float) :
  SFcompare a b = Some Lt →
  (SFcompare b c = Some Lt ∨ SFcompare b c = Some Eq) →
  SFcompare a c = Some Lt.
Proof.
  destruct a as [sa|sa| |sa ma ea], b as [sb|sb| |sb mb eb], c as [sc|sc| |sc mc ec];
    simpl; try (intros; discriminate); try (intros ? [?|?]; discriminate);
    repeat match goal with s : bool |- _ => destruct s end; simpl;
    try (intros; discriminate); try (intros ? [?|?]; discriminate); try done.
  all: rewrite ?Pos.compare_cont_spec; simpl.
  all: intros H1 H2.
  all: destruct (Z.compare_spec ea eb), (Z.compare_spec eb ec), (Z.compare_spec ea ec);
       try lia; try discriminate; try (destruct H2; discriminate); try done.
  all: subst.
  all: destruct (Pos.compare_spec ma mb), (Pos.compare_spec mb mc),
                (Pos.compare_spec ma mc);
       simpl in *; try lia; try discriminate; try (destruct H2; discriminate); try done.
Qed.

(** [x < y] and [y < x] never both hold. *)
Lemma ltb_asym (x y : float) : PrimFloat.ltb x y = true → PrimFloat.ltb y x = false.
Proof.
  rewrite !ltb_spec. unfold SFltb. rewrite (SFcompare_antisym (Prim2SF x) (Prim2SF y)).
  destruct (SFcompare (Prim2SF x) (Prim2SF y)) as [[]|]; simpl; done.
Qed.

(** [x < y] and [y <= z] give [x < z]. *)
Lemma ltb_leb_trans (x y z : float) :
  PrimFloat.ltb x y = true → PrimFloat.leb y z = true → PrimFloat.ltb x z = true.
Proof.
  rewrite !ltb_spec, leb_spec. unfold SFltb, SFleb. intros Hxy Hyz.
  rewrite (SFcompare_Lt_trans (Prim2SF x) (Prim2SF y) (Prim2SF z)); [done| |].
  - destruct (SFcompare (Prim2SF x) (Prim2SF y)) as [[]|]; done.
  - destruct (SFcompare (Prim2SF y) (Prim2SF z)) as [[]|]; auto; done.
Qed.

Lemma SFcompare_Le_Lt_trans (a b c : spec_float) :
  (SFcompare a b = Some Lt ∨ SFcompare a b = Some Eq) →
  SFcompare b c = Some Lt →
  SFcompare a c = Some Lt.
Proof.
  destruct a as [sa|sa| |sa ma ea], b as [sb|sb| |sb mb eb], c as [sc|sc| |sc mc ec];
    simpl; try (intros; discriminate); try (intros [?|?]; discriminate);
    repeat match goal with s : bool |- _ => destruct s end; simpl;
    try (intros; discriminate); try (intros [?|?]; discriminate); try done.
  all: rewrite ?Pos.compare_cont_spec; simpl.
  all: intros H1 H2.
  all: destruct (Z.compare_spec ea eb), (Z.compare_spec eb ec), (Z.compare_spec ea ec);
       try lia; try discriminate; try (destruct H1; discriminate); try done.
  all: subst.
  all: destruct (Pos.compare_spec ma mb), (Pos.compare_spec mb mc),
                (Pos.compare_spec ma mc);
       simpl in *; try lia; try discriminate; try (destruct H1; discriminate); try done.
Qed.

(** [x <= y] and [y < z] give [x < z]. *)
Lemma leb_ltb_trans (x y z : float) :
  PrimFloat.leb x y = true → PrimFloat.ltb y z = true → PrimFloat.ltb x z = true.
Proof.
  rewrite !ltb_spec, leb_spec. unfold SFltb, SFleb. intros Hxy Hyz.
  rewrite (SFcompare_Le_Lt_trans (Prim2SF x) (Prim2SF y) (Prim2SF z)); [done| |].
  - destruct (SFcompare (Prim2SF x) (Prim2SF y)) as [[]|]; auto; done.
  - destruct (SFcompare (Prim2SF y) (Prim2SF z)) as [[]|]; done.
Qed.

End FloatOrder.

(** ** Script 2: the threshold view grows with the threshold *)

Module ThresholdMonotone.
Import Consolidator GeneticThreshold FloatOrder.

Lemma close_neighbor_ids_mono (cols : list Z) (row : list float) (t1 t2 : float) :
  PrimFloat.leb t1 t2 = true →
  sublist (close_neighbor_ids cols row t1) (close_neighbor_ids cols row t2).
Proof.
  intros Ht. revert row. induction cols as [|c cols IH]; intros [|d row]; simpl;
    try apply sublist_nil_l.
  destruct (PrimFloat.ltb d t1) eqn:Hd1.
  - rewrite (ltb_leb_trans d t1 t2) by done. apply sublist_skip, IH.
  - destruct (PrimFloat.ltb d t2); [apply sublist_cons|]; apply IH.
Qed.

(** Raising the distance threshold never loses a hyperedge: every
    hyperedge the view emits at a threshold [t1] is contained in a hyperedge
    it emits (for the same row and minimum size) at any threshold
    [t2 >= t1]. *)
Theorem genetic_threshold_monotone
    (df : DistFrame) (t1 t2 : float) (min_size : Z) (e : gset Z) :
  PrimFloat.leb t1 t2 = true →
  e ∈ get_genetic_distance_threshold_hyperedges df t1 min_size →
  ∃ e', e' ∈ get_genetic_distance_threshold_hyperedges df t2 min_size ∧ e ⊆ e'.
Proof.
  intros Ht. unfold get_genetic_distance_threshold_hyperedges.
  destruct (df_empty df); [intros H; inversion H|].
  rewrite elem_of_unique_hyperedges, list_elem_of_omap.
  intros (i & Hi & He). unfold row_hyperedge in He.
  case_decide as Hmin; [|discriminate]. injection He as <-.
  pose proof (close_neighbor_ids_mono (columns df) (iloc df i) t1 t2 Ht) as Hsub.
  exists (list_to_set (close_neighbor_ids (columns df) (iloc df i) t2)). split.
  - rewrite elem_of_unique_hyperedges, list_elem_of_omap. exists i. split; [done|].
    unfold row_hyperedge. rewrite decide_True; [done|].
    apply sublist_length in Hsub. lia.
  - intros x. rewrite !elem_of_list_to_set. by apply sublist_subseteq.
Qed.

Lemma genetic_threshold_monotone_witness :
  ∃ e', e' ∈ get_genetic_distance_threshold_hyperedges pair_frame 0.5 2
        ∧ ({[0; 1]} : gset Z) ⊆ e'.
Proof.
  apply (genetic_threshold_monotone pair_frame 0.1 0.5 2 {[0; 1]}).
  - reflexivity.
  - assert (get_genetic_distance_threshold_hyperedges pair_frame 0.1 2 = [ {[0; 1]} ])
      as -> by (vm_compute; reflexivity).
    apply list_elem_of_singleton. done.
Defined.

End ThresholdMonotone.

(** ** Script 2: the trait threshold view *)

Module TraitThreshold.
Import FloatOrder.

(** The traits table: the [individual_id] column, when the table has one,
    and the trait columns by name.  (Taking [individual_id] itself as the
    trait column is not part of this model.) *)
Record TraitsFrame := {
  individual_id_col : option (list Z);
  trait_cols : gmap string (list float);
}.

Definition n_rows (tf : TraitsFrame) : nat :=
  match individual_id_col tf with
  | Some ids => length ids
  | None =>
      match map_to_list (trait_cols tf) with
      | (_, col) :: _ => length col
      | [] => 0
      end
  end.

(** [traits_df.empty]: no column or no row. *)
Definition traits_empty (tf : TraitsFrame) : bool :=
  bool_decide (individual_id_col tf = None ∧ trait_cols tf = ∅)
  || bool_decide (n_rows tf = 0%nat).

(** [traits_df[mask][individual_ids_col].values]: the ids of the rows whose
    trait value passes the test, in table order. *)
Fixpoint select_where (test : float → bool) (ids : list Z) (col : list float) : list Z :=
  match ids, col with
  | id :: ids', v :: col' =>
      if test v then id :: select_where test ids' col'
      else select_where test ids' col'
  | _, _ => []
  end.

Definition emit_if_several (selected_individuals : list Z) : list Hyperedge :=
  if decide (1 < length selected_individuals)%nat
  then [list_to_set selected_individuals] else [].

Definition get_trait_threshold_hyperedges
    (traits_df : TraitsFrame) (trait_column : string) (threshold : float) (mode : string)
  : list Hyperedge :=
  if traits_empty traits_df then []
  else
    match trait_cols traits_df !! trait_column, individual_id_col traits_df with
    | Some col, Some ids =>
        if decide (mode = "above")
        then emit_if_several (select_where (λ v, PrimFloat.ltb threshold v) ids col)
        else if decide (mode = "below")
        then emit_if_several (select_where (λ v, PrimFloat.ltb v threshold) ids col)
        else []
    | _, _ => []
    end.

Lemma elem_of_select_where (test : float → bool) (ids : list Z) (col : list float) (x : Z) :
  x ∈ select_where test ids col ↔
  ∃ i v, ids !! i = Some x ∧ col !! i = Some v ∧ test v = true.
Proof.
  revert col. induction ids as [|id ids IH]; intros [|v col]; simpl.
  - split; [intros H; inversion H | intros (i & ? & H & _); destruct i; discriminate].
  - split; [intros H; inversion H | intros (i & ? & H & _); destruct i; discriminate].
  - split; [intros H; inversion H | intros (i & ? & _ & H & _); destruct i; discriminate].
  - destruct (test v) eqn:Hv.
    + rewrite elem_of_cons, IH. split.
      * intros [-> | (i & v' & H1 & H2 & H3)].
        -- by exists 0%nat, v.
        -- by exists (S i), v'.
      * intros ([|i] & v' & H1 & H2 & H3); simpl in *.
        -- left. congruence.
        -- right. by exists i, v'.
    + rewrite IH. split.
      * intros (i & v' & H1 & H2 & H3). by exists (S i), v'.
      * intros ([|i] & v' & H1 & H2 & H3); simpl in *.
        -- congruence.
        -- by exists i, v'.
Qed.

Lemma select_where_sublist (test : float → bool) (ids : list Z) (col : list float) :
  sublist (select_where test ids col) ids.
Proof.
  revert col. induction ids as [|id ids IH]; intros [|v col]; simpl;
    try apply sublist_nil_l.
  destruct (test v); [apply sublist_skip | apply sublist_cons]; apply IH.
Qed.

Lemma elem_of_emit_if_several (sel : list Z) (e : gset Z) :
  e ∈ emit_if_several sel ↔ (1 < length sel)%nat ∧ e = list_to_set sel.
Proof.
  unfold emit_if_several. case_decide.
  - rewrite list_elem_of_singleton. tauto.
  - split; [intros H'; inversion H' | intros [? _]; lia].
Qed.

(** The trait threshold view returns at most one hyperedge.  When it
    returns one, the mode is "above" or "below", both columns exist, the
    members are exactly the ids of the rows whose trait value is strictly
    above (below) the threshold, more than one row was selected and, if the
    ids are unique, the hyperedge has at least two members.  Any other mode,
    or a missing column, gives no hyperedge. *)
Theorem trait_threshold_single_group
    (tf : TraitsFrame) (trait_column : string) (threshold : float) (mode : string) :
  (length (get_trait_threshold_hyperedges tf trait_column threshold mode) ≤ 1)%nat
  ∧ (∀ e, e ∈ get_trait_threshold_hyperedges tf trait_column threshold mode →
          ∃ ids col,
            individual_id_col tf = Some ids ∧ trait_cols tf !! trait_column = Some col
            ∧ (mode = "above" ∨ mode = "below")
            ∧ (∀ x, x ∈ e ↔
                    ∃ i v, ids !! i = Some x ∧ col !! i = Some v
                           ∧ (if decide (mode = "above")
                              then PrimFloat.ltb threshold v
                              else PrimFloat.ltb v threshold) = true)
            ∧ (NoDup ids → (2 ≤ size e)%nat))
  ∧ (mode ≠ "above" → mode ≠ "below" →
     get_trait_threshold_hyperedges tf trait_column threshold mode = [])
  ∧ (trait_cols tf !! trait_column = None ∨ individual_id_col tf = None →
     get_trait_threshold_hyperedges tf trait_column threshold mode = []).
Proof.
  unfold get_trait_threshold_hyperedges.
  destruct (traits_empty tf).
  { split; [simpl; lia|]. split; [intros e H; inversion H|]. done. }
  destruct (trait_cols tf !! trait_column) as [col|] eqn:Hcol,
           (individual_id_col tf) as [ids|] eqn:Hids;
    try (split; [simpl; lia|]; split; [intros e H; inversion H|]; done).
  assert (∀ test e, e ∈ emit_if_several (select_where test ids col) →
            (∀ x, x ∈ e ↔ ∃ i v, ids !! i = Some x ∧ col !! i = Some v ∧ test v = true)
            ∧ (NoDup ids → (2 ≤ size e)%nat)) as Hemit.
  { intros test e He. apply elem_of_emit_if_several in He as [Hlen ->]. split.
    - intros x. rewrite elem_of_list_to_set. apply elem_of_select_where.
    - intros Hnd. rewrite size_list_to_set; [lia|].
      eapply sublist_NoDup; [done|apply select_where_sublist]. }
  assert (∀ sel, (length (emit_if_several sel) ≤ 1)%nat) as Hone.
  { intros sel. unfold emit_if_several. case_decide; simpl; lia. }
  split; [|split; [|split]].
  - repeat case_decide; try apply Hone. simpl. lia.
  - intros e He. exists ids, col. split; [done|]. split; [done|].
    destruct (decide (mode = "above")) as [Ha|Ha].
    + split; [by left|]. by apply Hemit.
    + destruct (decide (mode = "below")) as [Hb|Hb]; [|inversion He].
      split; [by right|]. by apply Hemit.
  - intros Ha Hb. by rewrite !decide_False.
  - intros [?|?]; discriminate.
Qed.

Lemma trait_hyperedge_inv
    (tf : TraitsFrame) (trait_column : string) (threshold : float) (mode : string)
    (e : gset Z) :
  e ∈ get_trait_threshold_hyperedges tf trait_column threshold mode →
  ∃ ids col,
    individual_id_col tf = Some ids ∧ trait_cols tf !! trait_column = Some col
    ∧ ((mode = "above"
        ∧ e = list_to_set (select_where (λ v, PrimFloat.ltb threshold v) ids col))
       ∨ (mode = "below"
          ∧ e = list_to_set (select_where (λ v, PrimFloat.ltb v threshold) ids col))).
Proof.
  unfold get_trait_threshold_hyperedges.
  destruct (traits_empty tf); [intros H; inversion H|].
  destruct (trait_cols tf !! trait_column) as [col|],
           (individual_id_col tf) as [ids|]; try (intros H; inversion H; fail).
  intros He. exists ids, col. split; [done|]. split; [done|].
  destruct (decide (mode = "above")) as [Ha|Ha].
  - left. apply elem_of_emit_if_several in He. tauto.
  - destruct (decide (mode = "below")) as [Hb|Hb]; [|inversion He].
    right. apply elem_of_emit_if_several in He. tauto.
Qed.

(** With unique ids, no individual is in both the "above" and the "below"
    hyperedge of the same trait column and threshold. *)
Theorem trait_above_below_disjoint
    (tf : TraitsFrame) (trait_column : string) (threshold : float) (ids : list Z)
    (e_above e_below : gset Z) :
  individual_id_col tf = Some ids → NoDup ids →
  e_above ∈ get_trait_threshold_hyperedges tf trait_column threshold "above" →
  e_below ∈ get_trait_threshold_hyperedges tf trait_column threshold "below" →
  e_above ## e_below.
Proof.
  intros Hids Hnd Ha Hb.
  destruct (trait_hyperedge_inv _ _ _ _ _ Ha) as (ids1 & col1 & Hids1 & Hcol1 & Hea).
  destruct (trait_hyperedge_inv _ _ _ _ _ Hb) as (ids2 & col2 & Hids2 & Hcol2 & Heb).
  assert (ids1 = ids) as -> by congruence. assert (ids2 = ids) as -> by congruence.
  assert (col2 = col1) as -> by congruence.
  destruct Hea as [[_ ->]|[? _]]; [|discriminate].
  destruct Heb as [[? _]|[_ ->]]; [discriminate|].
  apply elem_of_disjoint. intros x.
  rewrite !elem_of_list_to_set, !elem_of_select_where.
  intros (i & v & Hi & Hv & Habove) (j & w & Hj & Hw & Hbelow).
  assert (i = j) as -> by (eapply NoDup_lookup; done).
  assert (v = w) as -> by congruence.
  apply ltb_asym in Habove. congruence.
Qed.

(** Six individuals in two groups of trait values, around -5 and +5. *)
Definition two_groups_frame : TraitsFrame :=
  {| individual_id_col := Some [1; 2; 3; 4; 5; 6];
     trait_cols := {[ "trait_0" := [(-5.1)%float; (-5)%float; (-4.9)%float;
                                     4.9%float; 5%float; 5.1%float] ]} |}.

Lemma trait_above_below_disjoint_witness :
  ({[4; 5; 6]} : gset Z) ∩ {[1; 2; 3]} = ∅.
Proof.
  apply disjoint_intersection_L.
  apply (trait_above_below_disjoint two_groups_frame "trait_0" 0%float
           [1; 2; 3; 4; 5; 6]).
  - reflexivity.
  - repeat constructor; rewrite ?elem_of_cons, ?elem_of_nil; lia.
  - assert (get_trait_threshold_hyperedges two_groups_frame "trait_0" 0 "above"
            = [ {[4; 5; 6]} ]) as -> by (vm_compute; reflexivity).
    by apply list_elem_of_singleton.
  - assert (get_trait_threshold_hyperedges two_groups_frame "trait_0" 0 "below"
            = [ {[1; 2; 3]} ]) as -> by (vm_compute; reflexivity).
    by apply list_elem_of_singleton.
Defined.

Lemma trait_threshold_single_group_witness :
  get_trait_threshold_hyperedges two_groups_frame "trait_0" 0%float "between" = []
  ∧ get_trait_threshold_hyperedges two_groups_frame "trait_9" 0%float "above" = [].
Proof.
  split.
  - apply (proj1 (proj2 (proj2 (trait_threshold_single_group
                                  two_groups_frame "trait_0" 0%float "between")))); done.
  - apply (proj2 (proj2 (proj2 (trait_threshold_single_group
                                  two_groups_frame "trait_9" 0%float "above")))).
    left. reflexivity.
Defined.

End TraitThreshold.

(** ** From script 2 to script 3, and what script 3 exports *)

Module Pipeline.
Import Consolidator HypergraphModel.

(** The end of script 2: [[list(map(int, he)) for he in
    final_hyperedge_list_loaded]], written to the hyperedge file.  The order
    in which a frozenset lists its members is not fixed; the model takes the
    order of [elements]. *)
Definition hyperedges_for_json (final : list Hyperedge) : list (list json_member) :=
  (λ he : gset Z, JInt <$> elements he) <$> final.

(** A hyperedge file that holds the hyperedges [final] in their order, each
    with its members in some order. *)
Definition serializes (final : list (gset Z)) (saved : list (list json_member)) : Prop :=
  Forall2 (λ (he : gset Z) (l : list json_member), l ≡ₚ JInt <$> elements he) final saved.

Lemma edge_of_serialized (he : gset Z) (l : list json_member) :
  l ≡ₚ JInt <$> elements he → edge_of l = Some he.
Proof.
  intros Hl. rewrite (edge_of_perm _ _ Hl). unfold edge_of.
  rewrite mapM_fmap_Some by done. simpl. f_equal. apply list_to_set_elements_L.
Qed.

Lemma load_serialized (final : list (gset Z)) (saved : list (list json_member)) :
  serializes final saved →
  hyperedges_for_hnx_constructor saved = filter (λ e : gset Z, e ≠ ∅) final.
Proof.
  induction 1 as [|he l final saved Hl _ IH]; [done|]. simpl.
  pose proof (edge_of_serialized he l Hl) as Hedge. unfold edge_of in Hedge.
  destruct (mapM py_int l) as [members|]; [|discriminate].
  injection Hedge as Hedge. rewrite Hedge, filter_cons, IH.
  destruct (decide (he = ∅)) as [Hempty|Hne].
  - by rewrite decide_False by (intros Hne; by apply Hne).
  - by rewrite decide_True.
Qed.

Lemma serializes_hyperedges_for_json (final : list (gset Z)) :
  serializes final (hyperedges_for_json final).
Proof.
  unfold serializes, hyperedges_for_json.
  induction final as [|he final IH]; constructor; done.
Qed.

(** Script 3 reading the file script 2 wrote: whatever order the members
    were saved in, the edges handed to the hypergraph constructor are the
    consolidated hyperedges of the views, in the saved order, without the
    empty one; they are pairwise different; no hypergraph is built exactly
    when every hyperedge of every view is empty; and the nodes of the
    hypergraph are the individuals that occur in some hyperedge of some
    view. *)
Theorem script3_loads_what_script2_saved
    (views : list (list (gset Z))) (saved : list (list json_member)) :
  serializes (final_hyperedge_list_loaded views) saved →
  hyperedges_for_hnx_constructor saved
    = filter (λ e : gset Z, e ≠ ∅) (final_hyperedge_list_loaded views)
  ∧ NoDup (hyperedges_for_hnx_constructor saved)
  ∧ (∀ e, e ∈ hyperedges_for_hnx_constructor saved ↔
          e ≠ ∅ ∧ ∃ v, v ∈ views ∧ e ∈ v)
  ∧ (script3 saved = None ↔ ∀ v e, v ∈ views → e ∈ v → e = ∅)
  ∧ (∀ H data, script3 saved = Some (H, data) →
       ∀ x, x ∈ H_nodes H ↔ ∃ v e, v ∈ views ∧ e ∈ v ∧ x ∈ e).
Proof.
  intros Hsaved. pose proof (load_serialized _ _ Hsaved) as Hload.
  assert (∀ e, e ∈ hyperedges_for_hnx_constructor saved ↔
               e ≠ ∅ ∧ ∃ v, v ∈ views ∧ e ∈ v) as Hmem.
  { intros e. rewrite Hload, list_elem_of_filter, elem_of_final. done. }
  split; [done|]. split; [|split; [done|split]].
  - rewrite Hload. apply NoDup_filter, NoDup_unique_hyperedges.
  - unfold script3. split.
    + destruct (hyperedges_for_hnx_constructor saved) as [|e0 edges] eqn:Hedges;
        [|discriminate].
      intros _ v e Hv He. destruct (decide (e = ∅)) as [|Hne]; [done|].
      exfalso. eapply not_elem_of_nil. apply Hmem. split; [done|]. by exists v.
    + intros Hall.
      destruct (hyperedges_for_hnx_constructor saved) as [|e0 edges] eqn:Hedges;
        [done|].
      destruct (proj1 (Hmem e0)) as [Hne (v & Hv & He)]; [left|].
      destruct Hne. by eapply Hall.
  - intros H data Hrun x. unfold script3 in Hrun.
    destruct (hyperedges_for_hnx_constructor saved) as [|e0 edges] eqn:Hedges;
      [discriminate|].
    injection Hrun as <- _. unfold H_nodes. cbn [incidence_dict hnx_Hypergraph].
    rewrite elem_of_union_list. split.
    + intros (e & He & Hx). apply Hmem in He as [_ (v & Hv & He)]. by exists v, e.
    + intros (v & e & Hv & He & Hx). exists e. split; [|done].
      apply Hmem. split; [|by exists v]. intros ->. by apply not_elem_of_empty in Hx.
Qed.

Lemma script3_loads_what_script2_saved_witness :
  hyperedges_for_hnx_constructor (hyperedges_for_json
      (final_hyperedge_list_loaded [[ {[1; 2]}; ∅ ]; [ {[2; 1]}; {[3; 4; 5]} ]]))
  = filter (λ e : gset Z, e ≠ ∅)
      (final_hyperedge_list_loaded [[ {[1; 2]}; ∅ ]; [ {[2; 1]}; {[3; 4; 5]} ]]).
Proof.
  apply (script3_loads_what_script2_saved
           [[ {[1; 2]}; ∅ ]; [ {[2; 1]}; {[3; 4; 5]} ]]).
  apply serializes_hyperedges_for_json.
Defined.

(** The loading loop reads the entries one by one, and its exit voids the
    whole load: two parts of a file read one after the other give the edges
    of the first followed by those of the second when neither part makes the
    loop exit, and nothing at all otherwise, whatever was collected before;
    a load that does not exit never gives more edges than entries read. *)
Theorem loader_appends_and_never_adds (l1 l2 : list json_entry) :
  load_entries (l1 ++ l2)
    = (edges1 ← load_entries l1; edges2 ← load_entries l2;
       Some (edges1 ++ edges2))
  ∧ (load_entries l2 = None → load_entries (l1 ++ l2) = None)
  ∧ (∀ edges : list (gset Z),
       load_entries l1 = Some edges → (length edges ≤ length l1)%nat).
Proof.
  split; [apply load_entries_app|]. split.
  - intros Hexit. rewrite load_entries_app, Hexit.
    by destruct (load_entries l1).
  - intros edges. apply load_entries_length.
Qed.

Lemma loader_appends_and_never_adds_witness :
  load_entries [EIterable [JMember (JInt 1); JMember (JInt 2)]]
    = Some [ ({[1; 2]} : gset Z) ]
  ∧ load_entries ([EIterable [JMember (JInt 1); JMember (JInt 2)]]
                  ++ [EIterable [JUnconvertible]]) = None.
Proof.
  split; [vm_compute; reflexivity|].
  apply (proj1 (proj2 (loader_appends_and_never_adds
                         [EIterable [JMember (JInt 1); JMember (JInt 2)]]
                         [EIterable [JUnconvertible]]))).
  reflexivity.
Defined.

End Pipeline.

(** ** What script 3 exports and what script 4 saves *)

Module ExportAndAssignments.
Import HypergraphModel.

Lemma StronglySorted_le_lt (l : list Z) :
  StronglySorted Z.le l → NoDup l → StronglySorted Z.lt l.
Proof.
  induction 1 as [|x l Hsorted IH Hall]; intros Hnd; constructor.
  - apply IH. by apply NoDup_cons in Hnd as [_ ?].
  - apply NoDup_cons in Hnd as [Hnotin _].
    rewrite Forall_forall in Hall |- *. intros y Hy.
    specialize (Hall y Hy). assert (x ≠ y) by (intros ->; done). lia.
Qed.

Lemma sorted_elements_strict (X : gset Z) :
  StronglySorted Z.lt (merge_sort Z.le (elements X)).
Proof.
  apply StronglySorted_le_lt.
  - apply (StronglySorted_merge_sort Z.le).
  - rewrite merge_sort_Permutation. apply NoDup_elements.
Qed.

Lemma elem_of_sorted_elements (X : gset Z) (x : Z) :
  x ∈ merge_sort Z.le (elements X) ↔ x ∈ X.
Proof. by rewrite merge_sort_Permutation, elem_of_elements. Qed.

(** The structure script 3 writes is in canonical form: the node list is
    strictly ascending (so free of duplicates) and holds exactly the nodes of
    the hypergraph; the hyperedge lists come in the order of the edges, each
    strictly ascending, holding exactly the members of its edge, all of which
    appear in the node list. *)
Theorem exported_structure_canonical (H : Hypergraph) :
  StronglySorted Z.lt (nodes (hypergraph_structure_data H))
  ∧ (∀ x, x ∈ nodes (hypergraph_structure_data H) ↔ x ∈ H_nodes H)
  ∧ Forall2 (λ (e : gset Z) (l : list json_member),
               ∃ zs, l = JInt <$> zs ∧ StronglySorted Z.lt zs
                     ∧ (∀ z, z ∈ zs ↔ z ∈ e)
                     ∧ (∀ z, z ∈ zs → z ∈ nodes (hypergraph_structure_data H)))
            (incidence_dict H) (hyperedges (hypergraph_structure_data H)).
Proof.
  cbn [nodes hyperedges hypergraph_structure_data]. split; [|split].
  - apply sorted_elements_strict.
  - intros x. apply elem_of_sorted_elements.
  - apply Forall2_fmap_r, Forall_Forall2_diag, Forall_forall. intros e He.
    exists (merge_sort Z.le (elements e)). split; [done|].
    split; [apply sorted_elements_strict|]. split.
    + intros z. apply elem_of_sorted_elements.
    + intros z. rewrite !elem_of_sorted_elements. intros Hz.
      unfold H_nodes. apply elem_of_union_list. by exists e.
Qed.

(** *** The assignments table *)

(** [i] is the last cluster of the partition that contains [x]. *)
Definition last_cluster (partition : list (gset Z)) (x : Z) (i : nat) : Prop :=
  ∃ s, partition !! i = Some s ∧ x ∈ s
       ∧ ∀ j s', (i < j)%nat → partition !! j = Some s' → x ∉ s'.

Lemma lookup_label_union (a : nat) (s : gset Z) (m0 : gmap Z nat) (x : Z) (c : nat) :
  (gset_to_gmap a s ∪ m0) !! x = Some c ↔
  (x ∈ s ∧ c = a) ∨ ((x ∉ s) ∧ m0 !! x = Some c).
Proof.
  rewrite lookup_union_Some_raw, lookup_gset_to_gmap_Some, lookup_gset_to_gmap_None.
  split; intros [[? ?]|[? ?]]; auto.
Qed.

Lemma lookup_fold_clusters (l : list (gset Z)) (a : nat) (m0 : gmap Z nat) (x : Z) (c : nat) :
  foldl (λ (m : gmap Z nat) (p : nat * gset Z), gset_to_gmap p.1 p.2 ∪ m)
        m0 (zip (seq a (length l)) l) !! x = Some c ↔
  (∃ i, last_cluster l x i ∧ c = (a + i)%nat)
  ∨ ((∀ j s', l !! j = Some s' → x ∉ s') ∧ m0 !! x = Some c).
Proof.
  revert a m0. induction l as [|s l IH]; intros a m0.
  - simpl. split.
    + intros Hm. right. split; [intros j s' Hj; destruct j; discriminate|done].
    + intros [(i & (s & Hs & _) & _)|[_ Hm]]; [destruct i; discriminate|done].
  - simpl. rewrite IH. clear IH. rewrite lookup_label_union. split.
    + intros [(i & (s1 & Hs1 & Hx & Hlast) & ->)
             |[Hnone [[Hx ->]|[Hx Hm]]]].
      * left. exists (S i). split; [|lia]. exists s1. split; [done|]. split; [done|].
        intros [|j] s' Hj Hs'; [lia|]. apply (Hlast j); [lia|done].
      * left. exists 0%nat. split; [|lia]. exists s. split; [done|]. split; [done|].
        intros [|j] s' Hj Hs'; [lia|]. by apply (Hnone j).
      * right. split; [|done]. intros [|j] s' Hs'; simpl in Hs'.
        -- by injection Hs' as <-.
        -- by apply (Hnone j).
    + intros [(i & (s1 & Hs1 & Hx & Hlast) & ->)|[Hnone Hm]].
      * destruct i as [|i]; simpl in Hs1.
        -- injection Hs1 as <-. right. split.
           ++ intros j s' Hs'. apply (Hlast (S j)); [lia|done].
           ++ left. split; [done|lia].
        -- left. exists i. split; [|lia]. exists s1. split; [done|]. split; [done|].
           intros j s' Hj Hs'. apply (Hlast (S j)); [lia|done].
      * right. split.
        -- intros j s' Hs'. by apply (Hnone (S j)).
        -- right. split; [|done]. by apply (Hnone 0%nat).
Qed.

Lemma lookup_node_to_cluster (partition : list (gset Z)) (x : Z) (c : nat) :
  node_to_cluster partition !! x = Some c ↔ last_cluster partition x c.
Proof.
  unfold node_to_cluster. rewrite lookup_fold_clusters. split.
  - intros [(i & Hlast & ->)|[_ Hm]]; [done|]. by rewrite lookup_empty in Hm.
  - intros Hlast. left. by exists c.
Qed.

Lemma last_cluster_exists (partition : list (gset Z)) (x : Z) :
  x ∈ ⋃ partition → ∃ i, last_cluster partition x i.
Proof.
  induction partition as [|s l IH]; simpl.
  - intros Hx. by apply not_elem_of_empty in Hx.
  - intros Hx. destruct (decide (x ∈ ⋃ l)) as [Hl|Hl].
    + destruct (IH Hl) as (i & s1 & Hs1 & Hx1 & Hlast). exists (S i), s1.
      split; [done|]. split; [done|].
      intros [|j] s' Hj Hs'; [lia|]. apply (Hlast j); [lia|done].
    + exists 0%nat, s. split; [done|].
      split; [apply elem_of_union in Hx as [?|?]; done|].
      intros [|j] s' Hj Hs'; [lia|]. simpl in Hs'. intros Hx'. apply Hl.
      apply elem_of_union_list. exists s'. split; [|done].
      by eapply list_elem_of_lookup_2.
Qed.

Lemma elem_of_cluster_assignments (m : gmap Z nat) (x : Z) (c : nat) :
  (x, c) ∈ cluster_assignments m ↔ m !! x = Some c.
Proof.
  unfold cluster_assignments. rewrite list_elem_of_omap. split.
  - intros (k & _ & Hk). destruct (m !! k) as [c'|] eqn:Hm; [|done].
    simpl in Hk. by injection Hk as -> ->.
  - intros Hm. exists x. split.
    + rewrite merge_sort_Permutation, elem_of_elements, elem_of_dom. by exists c.
    + by rewrite Hm.
Qed.

Lemma cluster_assignments_ids (m : gmap Z nat) :
  (cluster_assignments m).*1 = merge_sort Z.le (elements (dom m)).
Proof.
  unfold cluster_assignments.
  assert (Forall (λ k, is_Some (m !! k)) (merge_sort Z.le (elements (dom m)))) as Hall.
  { apply Forall_forall. intros k.
    rewrite merge_sort_Permutation, elem_of_elements, elem_of_dom. done. }
  induction Hall as [|k ks [c Hc] _ IH]; [done|].
  csimpl. rewrite Hc. csimpl. by rewrite IH.
Qed.

(** The assignments table that script 4 derives from a detector result
    has its rows in strictly ascending order of [individual_id] (one row per
    individual), covers exactly the individuals of the clusters, and gives
    each individual the index of the _last_ cluster that contains it; when
    the clusters are pairwise disjoint, that is the index of the one cluster
    that contains it. *)
Theorem assignments_of_partition (partition : list (gset Z)) :
  StronglySorted Z.lt (cluster_assignments (node_to_cluster partition)).*1
  ∧ (∀ x, x ∈ (cluster_assignments (node_to_cluster partition)).*1 ↔ x ∈ ⋃ partition)
  ∧ (∀ x c, (x, c) ∈ cluster_assignments (node_to_cluster partition) ↔
            last_cluster partition x c)
  ∧ ((∀ i j s1 s2, partition !! i = Some s1 → partition !! j = Some s2 →
                   i ≠ j → s1 ## s2) →
     ∀ x c, (x, c) ∈ cluster_assignments (node_to_cluster partition) ↔
            ∃ s, partition !! c = Some s ∧ x ∈ s).
Proof.
  split; [|split; [|split]].
  - rewrite cluster_assignments_ids. apply sorted_elements_strict.
  - intros x. rewrite cluster_assignments_ids, elem_of_sorted_elements, elem_of_dom.
    split.
    + intros [c Hc]. apply lookup_node_to_cluster in Hc as (s & Hs & Hx & _).
      apply elem_of_union_list. exists s. split; [|done].
      by eapply list_elem_of_lookup_2.
    + intros Hx. destruct (last_cluster_exists _ _ Hx) as [i Hi].
      exists i. by apply lookup_node_to_cluster.
  - intros x c. by rewrite elem_of_cluster_assignments, lookup_node_to_cluster.
  - intros Hdisj x c. rewrite elem_of_cluster_assignments, lookup_node_to_cluster.
    split.
    + intros (s & Hs & Hx & _). by exists s.
    + intros (s & Hs & Hx). exists s. split; [done|]. split; [done|].
      intros j s' Hj Hs' Hx'.
      assert (s ## s') as Hd by (eapply (Hdisj c j); [done..|lia]).
      by apply (elem_of_disjoint s s' ) in Hx.
Qed.

Lemma assignments_of_partition_witness :
  (2, 0%nat) ∈ cluster_assignments (node_to_cluster [ {[1; 2]}; {[3]} ]) ↔
  ∃ s, [ ({[1; 2]} : gset Z); {[3]} ] !! 0%nat = Some s ∧ 2 ∈ s.
Proof.
  apply (proj2 (proj2 (proj2 (assignments_of_partition [ {[1; 2]}; {[3]} ])))).
  intros [|[|i]] [|[|j]] s1 s2 Hi Hj Hne; simpl in *; try discriminate; try done.
  - injection Hi as <-. injection Hj as <-. apply elem_of_disjoint. intros x.
    rewrite elem_of_union, !elem_of_singleton. lia.
  - injection Hi as <-. injection Hj as <-. apply elem_of_disjoint. intros x.
    rewrite elem_of_union, !elem_of_singleton. lia.
Defined.

Lemma reconstructed_has_nodes (data : structure_data) (H : Hypergraph) :
  reconstruct_H data = Some H → ∃ x, x ∈ H_nodes H.
Proof.
  unfold reconstruct_H. intros Hrec.
  pose proof (hyperedges_for_hnx_constructor_nonempty (hyperedges data)) as Hne.
  destruct (hyperedges_for_hnx_constructor (hyperedges data)) as [|e edges];
    [discriminate|].
  injection Hrec as <-. apply Forall_cons in Hne as [Hne _].
  destruct (set_choose_L e Hne) as [x Hx]. exists x.
  unfold H_nodes. simpl. apply elem_of_union. by left.
Qed.

(** When the detector is available and returns clusters that together
    cover exactly the nodes of the reconstructed hypergraph, script 4 saves an
    assignments table with exactly one row per node, in ascending order of
    [individual_id], and every cluster id in it is an index into the
    detector's result. *)
Theorem script4_one_row_per_node
    (kumar : Hypergraph → option (list (gset Z))) (data : structure_data)
    (H : Hypergraph) (partition : list (gset Z)) :
  reconstruct_H data = Some H → kumar H = Some partition →
  ⋃ partition = H_nodes H →
  ∃ rows, script4 kumar true data = SavedAssignments rows
          ∧ rows.*1 = merge_sort Z.le (elements (H_nodes H))
          ∧ ∀ x c, (x, c) ∈ rows → (c < length partition)%nat.
Proof.
  intros Hrec Hkumar Hcover. destruct (reconstructed_has_nodes _ _ Hrec) as [x0 Hx0].
  assert (dom (node_to_cluster partition) = H_nodes H) as Hdom.
  { apply set_eq. intros x. rewrite elem_of_dom, <- Hcover. split.
    - intros [c Hc]. apply lookup_node_to_cluster in Hc as (s & Hs & Hx & _).
      apply elem_of_union_list. exists s. split; [|done].
      by eapply list_elem_of_lookup_2.
    - intros Hx. destruct (last_cluster_exists _ _ Hx) as [i Hi].
      exists i. by apply lookup_node_to_cluster. }
  exists (cluster_assignments (node_to_cluster partition)). split; [|split].
  - unfold script4. rewrite Hrec, Hkumar.
    rewrite bool_decide_eq_true_2
      by (intros Hempty; rewrite Hempty in Hx0; by apply not_elem_of_empty in Hx0).
    simpl. destruct partition as [|c cs].
    + simpl in Hcover. rewrite <- Hcover in Hx0. by apply not_elem_of_empty in Hx0.
    + rewrite decide_False; [done|]. intros Hempty.
      rewrite Hempty, dom_empty_L in Hdom. rewrite <- Hdom in Hx0.
      by apply not_elem_of_empty in Hx0.
  - by rewrite cluster_assignments_ids, Hdom.
  - intros x c Hrow. apply elem_of_cluster_assignments, lookup_node_to_cluster in Hrow
      as (s & Hs & _). by eapply lookup_lt_Some.
Qed.

Lemma script4_one_row_per_node_witness :
  ∃ rows, script4 singleton_detector true
            {| nodes := [1; 2; 3]; hyperedges := [[JInt 1; JInt 2]; [JInt 3]] |}
          = SavedAssignments rows
          ∧ rows.*1 = merge_sort Z.le
                        (elements (H_nodes (hnx_Hypergraph [ {[1; 2]}; {[3]} ])))
          ∧ ∀ x c, (x, c) ∈ rows → (c < 3)%nat.
Proof.
  apply (script4_one_row_per_node singleton_detector
           {| nodes := [1; 2; 3]; hyperedges := [[JInt 1; JInt 2]; [JInt 3]] |}
           (hnx_Hypergraph [ {[1; 2]}; {[3]} ]) [ {[1]}; {[2]}; {[3]} ]).
  - vm_compute. reflexivity.
  - vm_compute. reflexivity.
  - vm_compute. reflexivity.
Defined.

End ExportAndAssignments.

(** ** Script 8: the 2-section graph of the hypergraph *)

Module TwoSection.
Import HypergraphModel ExportAndAssignments.

(** A NetworkX undirected graph: its nodes and its adjacency, kept
    symmetric ([add_edge(u, v)] makes [v] a neighbour of [u] and [u] a
    neighbour of [v], and adds both as nodes). *)
Record Graph := { g_nodes : gset Z; g_adj : gset (Z * Z) }.

Definition add_edge (G : Graph) (u v : Z) : Graph :=
  {| g_nodes := {[u; v]} ∪ g_nodes G; g_adj := {[(u, v); (v, u)]} ∪ g_adj G |}.

(** The pairs [(he_nodes[i], he_nodes[j])] for [i < j], in the order of the
    two nested loops. *)
Fixpoint he_pairs (he_nodes : list Z) : list (Z * Z) :=
  match he_nodes with
  | [] => []
  | u :: rest => ((u,.) <$> rest) ++ he_pairs rest
  end.

Definition add_pairs (G : Graph) (ps : list (Z * Z)) : Graph :=
  foldl (λ G p, add_edge G p.1 p.2) G ps.

Definition add_hyperedge (G : Graph) (he_nodes : list Z) : Graph :=
  add_pairs G (he_pairs he_nodes).

(** What the construction part of script 8 ends in: the exit when the
    structure lists no hyperedge, an uncaught [ValueError] when a member does
    not convert to an integer, or the graph. *)
Inductive script8_outcome :=
  | ExitNoHyperedges
  | RaisedValueError
  | Built (G : Graph).

Definition G_2section (data : structure_data) : script8_outcome :=
  match hyperedges data with
  | [] => ExitNoHyperedges
  | _ =>
      match mapM (mapM py_int) (hyperedges data) with
      | None => RaisedValueError
      | Some hes =>
          Built (foldl add_hyperedge
                       {| g_nodes := list_to_set (nodes data); g_adj := ∅ |} hes)
      end
  end.

Lemma elem_of_he_pairs (he : list Z) (u v : Z) :
  (u, v) ∈ he_pairs he ↔
  ∃ i j, (i < j)%nat ∧ he !! i = Some u ∧ he !! j = Some v.
Proof.
  induction he as [|w rest IH]; simpl.
  - split; [intros H; inversion H | intros (i & j & _ & H & _); destruct i; discriminate].
  - rewrite elem_of_app, list_elem_of_fmap, IH. split.
    + intros [(y & Heq & Hy)|(i & j & Hij & Hi & Hj)].
      * injection Heq as -> ->. apply list_elem_of_lookup_1 in Hy as [j Hj].
        exists 0%nat, (S j). split; [lia|done].
      * exists (S i), (S j). split; [lia|done].
    + intros ([|i] & [|j] & Hij & Hi & Hj); simpl in *; try lia.
      * left. exists v. injection Hi as <-. split; [done|].
        by eapply list_elem_of_lookup_2.
      * right. exists i, j. split; [lia|done].
Qed.

Lemma add_pairs_spec (ps : list (Z * Z)) (G : Graph) :
  (∀ p, p ∈ g_adj (add_pairs G ps) ↔
        p ∈ g_adj G ∨ ∃ q, q ∈ ps ∧ (p = q ∨ p = (q.2, q.1)))
  ∧ (∀ x, x ∈ g_nodes (add_pairs G ps) ↔
          x ∈ g_nodes G ∨ ∃ q, q ∈ ps ∧ (x = q.1 ∨ x = q.2)).
Proof.
  revert G. induction ps as [|q ps IH]; intros G; simpl.
  - split; intros y; (split; [by left|]).
    + intros [?|(q & Hq & _)]; [done|inversion Hq].
    + intros [?|(q & Hq & _)]; [done|inversion Hq].
  - destruct (IH (add_edge G q.1 q.2)) as [IHadj IHnodes]. split.
    + intros p. unfold add_pairs in *. rewrite IHadj. simpl.
      rewrite !elem_of_union, !elem_of_singleton. split.
      * intros [[[->| ->]|?]|(q' & Hq' & Hp)].
        -- right. exists q. split; [left|]. left. by destruct q.
        -- right. exists q. split; [left|]. by right.
        -- by left.
        -- right. exists q'. split; [by right|done].
      * intros [?|(q' & Hq' & Hp)]; [by left; right|].
        apply elem_of_cons in Hq' as [->|Hq'].
        -- left. left. destruct Hp as [->| ->]; [left; by destruct q|by right].
        -- right. by exists q'.
    + intros x. unfold add_pairs in *. rewrite IHnodes. simpl.
      rewrite !elem_of_union, !elem_of_singleton. split.
      * intros [[[->| ->]|?]|(q' & Hq' & Hx)].
        -- right. exists q. split; [left|]. by left.
        -- right. exists q. split; [left|]. by right.
        -- by left.
        -- right. exists q'. split; [by right|done].
      * intros [?|(q' & Hq' & Hx)]; [by left; right|].
        apply elem_of_cons in Hq' as [->|Hq'].
        -- left. left. tauto.
        -- right. by exists q'.
Qed.

Lemma build_spec (hes : list (list Z)) (G : Graph) :
  (∀ p, p ∈ g_adj (foldl add_hyperedge G hes) ↔
        p ∈ g_adj G ∨ ∃ he q, he ∈ hes ∧ q ∈ he_pairs he ∧ (p = q ∨ p = (q.2, q.1)))
  ∧ (∀ x, x ∈ g_nodes (foldl add_hyperedge G hes) ↔
          x ∈ g_nodes G ∨ ∃ he q, he ∈ hes ∧ q ∈ he_pairs he ∧ (x = q.1 ∨ x = q.2)).
Proof.
  revert G. induction hes as [|he hes IH]; intros G; simpl.
  - split; intros y; (split; [by left|]).
    + intros [?|(he & q & Hhe & _)]; [done|inversion Hhe].
    + intros [?|(he & q & Hhe & _)]; [done|inversion Hhe].
  - destruct (IH (add_hyperedge G he)) as [IHadj IHnodes].
    destruct (add_pairs_spec (he_pairs he) G) as [Hadj Hnodes].
    unfold add_hyperedge in *. split.
    + intros p. rewrite IHadj, Hadj. split.
      * intros [[?|(q & Hq & Hp)]|(he' & q & Hhe' & Hq & Hp)].
        -- by left.
        -- right. exists he, q. split; [left|done].
        -- right. exists he', q. split; [by right|done].
      * intros [?|(he' & q & Hhe' & Hq & Hp)]; [by left; left|].
        apply elem_of_cons in Hhe' as [->|Hhe'].
        -- left. right. by exists q.
        -- right. by exists he', q.
    + intros x. rewrite IHnodes, Hnodes. split.
      * intros [[?|(q & Hq & Hx)]|(he' & q & Hhe' & Hq & Hx)].
        -- by left.
        -- right. exists he, q. split; [left|done].
        -- right. exists he', q. split; [by right|done].
      * intros [?|(he' & q & Hhe' & Hq & Hx)]; [by left; left|].
        apply elem_of_cons in Hhe' as [->|Hhe'].
        -- left. right. by exists q.
        -- right. by exists he', q.
Qed.

Lemma pair_member_iff (he : list Z) (x : Z) :
  (∃ q, q ∈ he_pairs he ∧ (x = q.1 ∨ x = q.2)) ↔ x ∈ he ∧ (2 ≤ length he)%nat.
Proof.
  split.
  - intros ([u v] & Hq & Hx). apply elem_of_he_pairs in Hq as (i & j & Hij & Hi & Hj).
    split.
    + destruct Hx as [->| ->]; by eapply list_elem_of_lookup_2.
    + apply lookup_lt_Some in Hj. lia.
  - intros [Hx Hlen]. apply list_elem_of_lookup_1 in Hx as [k Hk].
    destruct k as [|k].
    + destruct (lookup_lt_is_Some_2 he 1) as [y Hy]; [lia|].
      exists (x, y). split; [|by left].
      apply elem_of_he_pairs. exists 0%nat, 1%nat. split; [lia|done].
    + destruct (lookup_lt_is_Some_2 he 0) as [y Hy]; [lia|].
      exists (y, x). split; [|by right].
      apply elem_of_he_pairs. exists 0%nat, (S k). split; [lia|done].
Qed.

(** When script 8 builds the 2-section graph, every hyperedge member
    converted to an integer; two nodes are adjacent exactly when they stand at
    two different positions of one hyperedge list (so a node is adjacent to
    itself exactly when a list repeats it); adjacency is symmetric; and the
    nodes are those of the node list together with the members of the
    hyperedge lists of length at least 2. *)
Theorem two_section_adjacency (data : structure_data) (G : Graph) :
  G_2section data = Built G →
  ∃ hes, mapM (mapM py_int) (hyperedges data) = Some hes
    ∧ (∀ u v, (u, v) ∈ g_adj G ↔
              ∃ he i j, he ∈ hes ∧ i ≠ j ∧ he !! i = Some u ∧ he !! j = Some v)
    ∧ (∀ u v, (u, v) ∈ g_adj G → (v, u) ∈ g_adj G)
    ∧ (∀ x, x ∈ g_nodes G ↔
            x ∈ nodes data ∨ ∃ he, he ∈ hes ∧ x ∈ he ∧ (2 ≤ length he)%nat).
Proof.
  unfold G_2section. destruct (hyperedges data) as [|l ls] eqn:Hls; [discriminate|].
  destruct (mapM (mapM py_int) (l :: ls)) as [hes|]; [|discriminate].
  intros [= <-]. exists hes. split; [done|].
  destruct (build_spec hes {| g_nodes := list_to_set (nodes data); g_adj := ∅ |})
    as [Hadj Hnodes].
  assert (∀ u v, (u, v) ∈ g_adj (foldl add_hyperedge
                   {| g_nodes := list_to_set (nodes data); g_adj := ∅ |} hes) ↔
            ∃ he i j, he ∈ hes ∧ i ≠ j ∧ he !! i = Some u ∧ he !! j = Some v) as Hchar.
  { intros u v. rewrite Hadj. simpl. split.
    - intros [Hempty|(he & [a b] & Hhe & Hq & Hp)];
        [by apply not_elem_of_empty in Hempty|].
      apply elem_of_he_pairs in Hq as (i & j & Hij & Hi & Hj).
      destruct Hp as [[= -> ->]|[= -> ->]].
      + exists he, i, j. split; [done|]. split; [lia|done].
      + exists he, j, i. split; [done|]. split; [lia|done].
    - intros (he & i & j & Hhe & Hij & Hi & Hj). right.
      destruct (decide (i < j)%nat).
      + exists he, (u, v). split; [done|]. split; [|by left].
        apply elem_of_he_pairs. by exists i, j.
      + exists he, (v, u). split; [done|]. split; [|by right].
        apply elem_of_he_pairs. exists j, i. split; [lia|done]. }
  split; [done|]. split.
  - intros u v. rewrite !Hchar. intros (he & i & j & Hhe & Hij & Hi & Hj).
    exists he, j, i. split; [done|]. split; [lia|done].
  - intros x. rewrite Hnodes. simpl. rewrite elem_of_list_to_set. split.
    + intros [?|(he & q & Hhe & Hq & Hx)]; [by left|].
      right. exists he. split; [done|]. apply pair_member_iff. by exists q.
    + intros [?|(he & Hhe & Hx)]; [by left|].
      right. apply pair_member_iff in Hx as (q & Hq & Hx). by exists he, q.
Qed.

(** A structure with an isolated node 9, and its 2-section graph. *)
Definition example_structure : structure_data :=
  {| nodes := [1; 2; 3; 4; 9];
     hyperedges := [[JInt 1; JInt 2; JInt 3]; [JInt 3; JInt 4]] |}.

Definition example_graph : Graph :=
  {| g_nodes := {[1; 2; 3; 4; 9]};
     g_adj := {[(1, 2); (2, 1); (1, 3); (3, 1); (2, 3); (3, 2); (3, 4); (4, 3)]} |}.

Lemma two_section_adjacency_witness :
  ∃ hes, mapM (mapM py_int) (hyperedges example_structure) = Some hes
    ∧ (∀ u v, (u, v) ∈ g_adj example_graph ↔
              ∃ he i j, he ∈ hes ∧ i ≠ j ∧ he !! i = Some u ∧ he !! j = Some v)
    ∧ (∀ u v, (u, v) ∈ g_adj example_graph → (v, u) ∈ g_adj example_graph)
    ∧ (∀ x, x ∈ g_nodes example_graph ↔
            x ∈ nodes example_structure
            ∨ ∃ he, he ∈ hes ∧ x ∈ he ∧ (2 ≤ length he)%nat).
Proof.
  apply (two_section_adjacency example_structure example_graph).
  vm_compute. reflexivity.
Defined.

Lemma mapM_exported_edges (edges : list (gset Z)) :
  mapM (mapM py_int)
       ((λ edge_members : gset Z, JInt <$> merge_sort Z.le (elements edge_members))
        <$> edges)
  = Some ((λ e : gset Z, merge_sort Z.le (elements e)) <$> edges).
Proof.
  apply mapM_Some_2, Forall2_fmap, Forall_Forall2_diag, Forall_forall.
  intros e _. by apply mapM_fmap_Some.
Qed.

Lemma G_2section_exported (H : Hypergraph) :
  incidence_dict H ≠ [] →
  G_2section (hypergraph_structure_data H)
  = Built (foldl add_hyperedge
             {| g_nodes := list_to_set (merge_sort Z.le (elements (H_nodes H)));
                g_adj := ∅ |}
             ((λ e : gset Z, merge_sort Z.le (elements e)) <$> incidence_dict H)).
Proof.
  intros Hedges. unfold G_2section. cbn [hyperedges nodes hypergraph_structure_data].
  rewrite mapM_exported_edges. by destruct (incidence_dict H).
Qed.

(** The 2-section graph that script 8 builds from the structure exported
    by script 3 for a hypergraph [H] with at least one hyperedge has exactly
    the nodes of [H], has no self-loop, and joins two different nodes exactly
    when some hyperedge of [H] contains both. *)
Theorem two_section_of_exported_hypergraph (H : Hypergraph) :
  incidence_dict H ≠ [] →
  ∃ G, G_2section (hypergraph_structure_data H) = Built G
       ∧ g_nodes G = H_nodes H
       ∧ ∀ u v, (u, v) ∈ g_adj G ↔
                u ≠ v ∧ ∃ e, e ∈ incidence_dict H ∧ u ∈ e ∧ v ∈ e.
Proof.
  intros Hedges. rewrite (G_2section_exported H Hedges).
  set (hes := (λ e : gset Z, merge_sort Z.le (elements e)) <$> incidence_dict H).
  eexists. split; [done|].
  destruct (build_spec hes
    {| g_nodes := list_to_set (merge_sort Z.le (elements (H_nodes H))); g_adj := ∅ |})
    as [Hadj Hnodes].
  split.
  - apply set_eq. intros x. rewrite Hnodes. simpl.
    rewrite list_to_set_sorted_elements. split; [|by left].
    intros [?|(he & q & Hhe & Hq & Hx)]; [done|].
    apply list_elem_of_fmap in Hhe as (e & -> & He).
    assert (x ∈ merge_sort Z.le (elements e)) as Hin
      by (apply pair_member_iff; by exists q).
    apply elem_of_sorted_elements in Hin.
    unfold H_nodes. apply elem_of_union_list. by exists e.
  - intros u v. rewrite Hadj. simpl. split.
    + intros [Hempty|(he & [a b] & Hhe & Hq & Hp)];
        [by apply not_elem_of_empty in Hempty|].
      apply list_elem_of_fmap in Hhe as (e & -> & He).
      apply elem_of_he_pairs in Hq as (i & j & Hij & Hi & Hj).
      assert (NoDup (merge_sort Z.le (elements e))) as Hnd
        by (rewrite merge_sort_Permutation; apply NoDup_elements).
      assert (a ≠ b) as Hlt.
      { intros ->. assert (i = j) by (eapply NoDup_lookup; done). lia. }
      assert (a ∈ e ∧ b ∈ e) as [Ha Hb].
      { split; apply elem_of_sorted_elements; by eapply list_elem_of_lookup_2. }
      destruct Hp as [[= -> ->]|[= -> ->]]; (split; [congruence|by exists e]).
    + intros (Hne & e & He & Hu & Hv). right.
      apply elem_of_sorted_elements, list_elem_of_lookup_1 in Hu as [i Hi].
      apply elem_of_sorted_elements, list_elem_of_lookup_1 in Hv as [j Hj].
      assert (i ≠ j) as Hij by (intros ->; congruence).
      exists (merge_sort Z.le (elements e)).
      destruct (decide (i < j)%nat).
      * exists (u, v). split; [apply list_elem_of_fmap; by exists e|].
        split; [|by left]. apply elem_of_he_pairs. by exists i, j.
      * exists (v, u). split; [apply list_elem_of_fmap; by exists e|].
        split; [|by right]. apply elem_of_he_pairs. exists j, i. split; [lia|done].
Qed.

Lemma two_section_of_exported_hypergraph_witness :
  ∃ G, G_2section (hypergraph_structure_data (hnx_Hypergraph [ {[1; 2; 3]}; {[3; 4]} ]))
       = Built G
       ∧ g_nodes G = H_nodes (hnx_Hypergraph [ {[1; 2; 3]}; {[3; 4]} ])
       ∧ ∀ u v, (u, v) ∈ g_adj G ↔
                u ≠ v ∧ ∃ e, e ∈ incidence_dict (hnx_Hypergraph [ {[1; 2; 3]}; {[3; 4]} ])
                             ∧ u ∈ e ∧ v ∈ e.
Proof.
  apply (two_section_of_exported_hypergraph (hnx_Hypergraph [ {[1; 2; 3]}; {[3; 4]} ])).
  discriminate.
Defined.

End TwoSection.

(** ** Script 5: joining the individuals with their cluster assignments *)

Module Evaluation.
Import FamilyView.

(** [pd.merge(individuals_df, cluster_assignments_df, on='individual_id',
    how='inner')]: for every individual, in table order, one row per
    assignment row with the same id. *)
Definition merge_inner (individuals_df : list IndividualRow) (assignments : list (Z * nat))
  : list (IndividualRow * nat) :=
  r ← individuals_df;
  (λ a : Z * nat, (r, a.2)) <$> filter (λ a : Z * nat, a.1 = individual_id r) assignments.

(** The merge step of script 5: it exits when the merge is empty although
    there are individuals, and warns when the merge has another number of
    rows than the individuals table. *)
Inductive merge_outcome :=
  | ExitEmptyMerge
  | Merged (warned : bool) (merged_df : list (IndividualRow * nat)).

Definition script5_merge (individuals_df : list IndividualRow) (assignments : list (Z * nat))
  : merge_outcome :=
  let merged_df := merge_inner individuals_df assignments in
  if decide (length merged_df ≠ length individuals_df) then
    if decide (length merged_df = 0%nat) then ExitEmptyMerge
    else Merged true merged_df
  else Merged false merged_df.

Lemma elem_of_merge_inner
    (df : list IndividualRow) (assignments : list (Z * nat)) (r : IndividualRow) (c : nat) :
  (r, c) ∈ merge_inner df assignments ↔ r ∈ df ∧ (individual_id r, c) ∈ assignments.
Proof.
  unfold merge_inner. rewrite list_elem_of_bind. split.
  - intros (r' & Hin & Hr'). apply list_elem_of_fmap in Hin as ([k c'] & Heq & Ha).
    injection Heq as -> ->. apply list_elem_of_filter in Ha as [Hk Ha].
    simpl in Hk. subst k. done.
  - intros [Hr Ha]. exists r. split; [|done].
    apply list_elem_of_fmap. exists (individual_id r, c). split; [done|].
    by apply list_elem_of_filter.
Qed.

Lemma length_filter_key (assignments : list (Z * nat)) (k : Z) :
  NoDup assignments.*1 →
  length (filter (λ a : Z * nat, a.1 = k) assignments)
  = if decide (k ∈ assignments.*1) then 1%nat else 0%nat.
Proof.
  induction assignments as [|[k' c] l IH]; intros Hnd.
  - done.
  - rewrite fmap_cons in Hnd. apply NoDup_cons in Hnd as [Hnotin Hnd].
    specialize (IH Hnd). rewrite filter_cons, fmap_cons. cbn [fst] in *.
    destruct (decide (k ∈ k' :: l.*1)) as [Hin'|Hin'];
      destruct (decide (k' = k)) as [->|Hne]; simpl; rewrite IH;
      destruct (decide (k ∈ l.*1)) as [Hin|Hin]; try done; exfalso.
    + apply elem_of_cons in Hin' as [?|?]; [congruence|done].
    + apply Hin'. left.
    + apply Hin'. by right.
Qed.

Lemma filter_all {A} (P : A → Prop) `{!∀ x, Decision (P x)} (l : list A) :
  (∀ x, x ∈ l → P x) → filter P l = l.
Proof.
  induction l as [|x l IH]; intros Hall; [done|].
  rewrite filter_cons, decide_True by (apply Hall; left).
  f_equal. apply IH. intros y Hy. apply Hall. by right.
Qed.

Lemma merge_inner_individuals (df : list IndividualRow) (assignments : list (Z * nat)) :
  NoDup assignments.*1 →
  (merge_inner df assignments).*1
  = filter (λ r, individual_id r ∈ assignments.*1) df.
Proof.
  intros Hnd. unfold merge_inner. induction df as [|r df IH]; [done|].
  csimpl. rewrite fmap_app, IH, filter_cons. clear IH.
  pose proof (length_filter_key assignments (individual_id r) Hnd) as Hlen.
  destruct (filter (λ a : Z * nat, a.1 = individual_id r) assignments) as [|a [|a' l]];
    simpl in Hlen; case_decide; try discriminate; done.
Qed.

(** When the assignment ids are unique (as in the table script 4 writes),
    the merge keeps, in table order, exactly the individuals that have an
    assignment, each with its cluster id; it never has more rows than the
    individuals table; script 5 warns exactly when some individual has no
    assignment, and exits exactly when there are individuals and none of them
    has one. *)
Theorem merge_keeps_assigned_individuals
    (df : list IndividualRow) (assignments : list (Z * nat)) :
  NoDup assignments.*1 →
  (merge_inner df assignments).*1 = filter (λ r, individual_id r ∈ assignments.*1) df
  ∧ (∀ r c, (r, c) ∈ merge_inner df assignments ↔
            r ∈ df ∧ (individual_id r, c) ∈ assignments)
  ∧ (length (merge_inner df assignments) ≤ length df)%nat
  ∧ (script5_merge df assignments = Merged false (merge_inner df assignments) ↔
     ∀ r, r ∈ df → individual_id r ∈ assignments.*1)
  ∧ (script5_merge df assignments = ExitEmptyMerge ↔
     df ≠ [] ∧ ∀ r, r ∈ df → individual_id r ∉ assignments.*1).
Proof.
  intros Hnd. pose proof (merge_inner_individuals df assignments Hnd) as Hids.
  assert (length (merge_inner df assignments)
          = length (filter (λ r, individual_id r ∈ assignments.*1) df)) as Hlen
    by (by rewrite <- Hids, length_fmap).
  pose proof (length_filter (λ r, individual_id r ∈ assignments.*1) df) as Hle.
  assert (length (filter (λ r, individual_id r ∈ assignments.*1) df) = length df
          ↔ ∀ r, r ∈ df → individual_id r ∈ assignments.*1) as Hall.
  { split.
    - intros Heq r Hr.
      destruct (decide (individual_id r ∈ assignments.*1)) as [|Hnotin]; [done|].
      pose proof (length_filter_lt (λ r, individual_id r ∈ assignments.*1) df r Hr
                    Hnotin).
      lia.
    - intros Hin. by rewrite filter_all. }
  assert (length (filter (λ r, individual_id r ∈ assignments.*1) df) = 0%nat
          ↔ ∀ r, r ∈ df → individual_id r ∉ assignments.*1) as Hnone.
  { rewrite length_zero_iff_nil. split.
    - intros Hnil r Hr Hin.
      assert (r ∈ filter (λ r, individual_id r ∈ assignments.*1) df) as Hf
        by (by apply list_elem_of_filter).
      rewrite Hnil in Hf. inversion Hf.
    - intros Hnot. destruct (filter _ df) as [|r l] eqn:Hf; [done|].
      assert (r ∈ filter (λ r, individual_id r ∈ assignments.*1) df) as Hin
        by (rewrite Hf; left).
      apply list_elem_of_filter in Hin as [Hin Hr]. by destruct (Hnot r Hr). }
  split; [done|]. split; [apply elem_of_merge_inner|]. split; [lia|].
  unfold script5_merge. split.
  - rewrite <- Hall, <- Hlen. case_decide as Hd.
    + case_decide; (split; [discriminate|intros; lia]).
    + split; [intros _; lia|done].
  - rewrite <- Hnone, <- Hlen. case_decide as Hd.
    + case_decide as Hz.
      * split; [|done]. intros _. split; [|done].
        intros ->. simpl in *. lia.
      * split; [discriminate|]. intros [_ ?]. lia.
    + split; [discriminate|]. intros [Hdf Hz].
      destruct df; [done|]. simpl in *. lia.
Qed.

Lemma merge_keeps_assigned_individuals_witness :
  (merge_inner scenarioB_table [(1, 0%nat); (2, 0%nat); (4, 1%nat); (7, 1%nat)]).*1
  = filter (λ r, individual_id r ∈ [(1, 0%nat); (2, 0%nat); (4, 1%nat); (7, 1%nat)].*1)
           scenarioB_table.
Proof.
  apply (merge_keeps_assigned_individuals scenarioB_table
           [(1, 0%nat); (2, 0%nat); (4, 1%nat); (7, 1%nat)]).
  simpl. repeat constructor; rewrite ?elem_of_cons, ?elem_of_nil; lia.
Defined.

End Evaluation.

(** ** Script 2: what consolidation keeps *)

Module ConsolidatorFacts.
Import Consolidator.

(** Consolidation loses nothing and invents nothing: a hyperedge is in the
    consolidated list exactly when some view produced it, it is there once,
    the list is never longer than all the views together, and views that
    share no hyperedge (and repeat none) are merely put together. *)
Theorem consolidation_keeps_each_hyperedge_once (views : list (list (gset Z))) :
  (∀ e, e ∈ final_hyperedge_list_loaded views ↔ ∃ v, v ∈ views ∧ e ∈ v)
  ∧ NoDup (final_hyperedge_list_loaded views)
  ∧ (length (final_hyperedge_list_loaded views)
     ≤ length (all_hyperedges_from_loaded views))%nat
  ∧ (NoDup (all_hyperedges_from_loaded views) →
     final_hyperedge_list_loaded views ≡ₚ all_hyperedges_from_loaded views).
Proof.
  assert (∀ e, e ∈ final_hyperedge_list_loaded views
               ↔ e ∈ all_hyperedges_from_loaded views) as Hmem.
  { intros e. unfold final_hyperedge_list_loaded. apply elem_of_unique_hyperedges. }
  split; [|split; [|split]].
  - intros e. rewrite Hmem. unfold all_hyperedges_from_loaded.
    rewrite list_elem_of_join. split; intros (v & H1 & H2); by exists v.
  - apply NoDup_unique_hyperedges.
  - apply submseteq_length, NoDup_submseteq; [apply NoDup_unique_hyperedges|].
    intros e. by rewrite Hmem.
  - intros Hnd. apply NoDup_Permutation; [apply NoDup_unique_hyperedges|done|].
    apply Hmem.
Qed.

Lemma consolidation_keeps_each_hyperedge_once_witness :
  final_hyperedge_list_loaded [[ {[1; 2]}; {[3; 4]} ]; [ {[5; 6]} ]]
  ≡ₚ all_hyperedges_from_loaded [[ {[1; 2]}; {[3; 4]} ]; [ {[5; 6]} ]].
Proof.
  apply (proj2 (proj2 (proj2 (consolidation_keeps_each_hyperedge_once
                                [[ {[1; 2]}; {[3; 4]} ]; [ {[5; 6]} ]])))).
  apply (bool_decide_unpack _). vm_compute. exact I.
Defined.

End ConsolidatorFacts.
